(** * nbtparser: a shallow embedding of the NBT decoder and renderer

    The development follows [nbtparser/parser.go] and the entry point
    [ParseNBT].  Go values are modelled as follows.

    - A [[]byte] is a [slice]: the bytes below its length ([vis]) and the
      bytes of the backing array between its length and its capacity
      ([hid]).  An index expression [s[i]] is checked against the length;
      a slice expression [s[lo:hi]] is checked against the capacity
      (Go specification, "Slice expressions": for slices the upper bound
      is [cap(s)], not [len(s)]); [s[lo:]] stands for [s[lo:len(s)]].
    - [uint16], [uint32] and [uint] are [Z] with the wrap-around of every
      addition written out; [int] and [uint] have 64 bits.
    - A run-time panic is an outcome of its own: the decoder has no error
      return value. *)

From Stdlib Require Import ZArith List String Ascii Bool Lia DecimalString.
From Stdlib Require Import Strings.Byte.
Import ListNotations.
Local Open Scope Z_scope.
Set Warnings "-register-all".

(** ** Outcomes *)

Inductive panic : Type :=
| IndexOutOfRange        (* runtime error: index out of range *)
| SliceBoundsOutOfRange  (* runtime error: slice bounds out of range *)
| NilDereference         (* call of a nil func value *)
| InterfaceConversion.   (* failed type assertion x.(T) *)

Inductive result (A : Type) : Type :=
| Ok (a : A)
| Panic (p : panic)
| Fatal                  (* log.Fatal: the process exits *)
| OutOfFuel.             (* the model ran out of recursion budget *)

Arguments Ok {A} a.
Arguments Panic {A} p.
Arguments Fatal {A}.
Arguments OutOfFuel {A}.

Definition bind {A B : Type} (r : result A) (k : A -> result B) : result B :=
  match r with
  | Ok a => k a
  | Panic p => Panic p
  | Fatal => Fatal
  | OutOfFuel => OutOfFuel
  end.

Notation "x <- e ;; k" := (bind e (fun x => k))
  (at level 61, e at next level, right associativity).
Notation "' p <- e ;; k" := (bind e (fun x => let 'p := x in k))
  (at level 61, p pattern, e at next level, right associativity).

(** ** Machine integers *)

Definition wrap16 (z : Z) : Z := z mod 2 ^ 16.
Definition wrap32 (z : Z) : Z := z mod 2 ^ 32.
Definition wrap64 (z : Z) : Z := z mod 2 ^ 64.

Definition add16 (a b : Z) : Z := wrap16 (a + b).   (* uint16 + uint16 *)
Definition add32 (a b : Z) : Z := wrap32 (a + b).   (* uint32 + uint32 *)
Definition addUint (a b : Z) : Z := wrap64 (a + b). (* uint + uint *)

(* int16(x), int32(x), int64(x) for an unsigned x of the same width *)
Definition toInt16 (z : Z) : Z := if z <? 2 ^ 15 then z else z - 2 ^ 16.
Definition toInt32 (z : Z) : Z := if z <? 2 ^ 31 then z else z - 2 ^ 32.
Definition toInt64 (z : Z) : Z := if z <? 2 ^ 63 then z else z - 2 ^ 64.

Definition byteZ (b : byte) : Z := Z.of_N (Byte.to_N b).

(** ** Slices *)

Record slice : Type := mkSlice { vis : list byte; hid : list byte }.

Definition backing (s : slice) : list byte := vis s ++ hid s.
Definition len (s : slice) : Z := Z.of_nat (List.length (vis s)).
Definition cap (s : slice) : Z := Z.of_nat (List.length (backing s)).

(* a freshly allocated buffer: capacity equal to length *)
Definition buffer (l : list byte) : slice := mkSlice l [].

(* s[i] *)
Definition index (s : slice) (i : Z) : result byte :=
  if (0 <=? i) && (i <? len s) then
    match nth_error (vis s) (Z.to_nat i) with
    | Some b => Ok b
    | None => Panic IndexOutOfRange
    end
  else Panic IndexOutOfRange.

(* s[lo:hi] *)
Definition reslice (s : slice) (lo hi : Z) : result slice :=
  if (0 <=? lo) && (lo <=? hi) && (hi <=? cap s) then
    Ok (mkSlice (firstn (Z.to_nat (hi - lo)) (skipn (Z.to_nat lo) (backing s)))
                (skipn (Z.to_nat hi) (backing s)))
  else Panic SliceBoundsOutOfRange.

(* s[lo:] *)
Definition slice_from (s : slice) (lo : Z) : result slice :=
  reslice s lo (len s).

(** ** encoding/binary, BigEndian *)

Definition Uint16 (b : slice) : result Z :=
  b1 <- index b 1 ;;
  b0 <- index b 0 ;;
  Ok (Z.lor (byteZ b1) (Z.shiftl (byteZ b0) 8)).

Definition Uint32 (b : slice) : result Z :=
  b3 <- index b 3 ;;
  b2 <- index b 2 ;;
  b1 <- index b 1 ;;
  b0 <- index b 0 ;;
  Ok (Z.lor (Z.lor (Z.lor (byteZ b3) (Z.shiftl (byteZ b2) 8))
                   (Z.shiftl (byteZ b1) 16))
            (Z.shiftl (byteZ b0) 24)).

Definition Uint64 (b : slice) : result Z :=
  b7 <- index b 7 ;;
  b6 <- index b 6 ;;
  b5 <- index b 5 ;;
  b4 <- index b 4 ;;
  b3 <- index b 3 ;;
  b2 <- index b 2 ;;
  b1 <- index b 1 ;;
  b0 <- index b 0 ;;
  Ok (Z.lor (Z.lor (Z.lor (Z.lor (Z.lor (Z.lor (Z.lor
        (byteZ b7) (Z.shiftl (byteZ b6) 8)) (Z.shiftl (byteZ b5) 16))
        (Z.shiftl (byteZ b4) 24)) (Z.shiftl (byteZ b3) 32))
        (Z.shiftl (byteZ b2) 40)) (Z.shiftl (byteZ b1) 48))
        (Z.shiftl (byteZ b0) 56)).

(** ** Tags *)

Definition TagType : Type := Z.   (* type TagType int *)

Definition TAG_End : TagType := 0.
Definition TAG_Byte : TagType := 1.
Definition TAG_Short : TagType := 2.
Definition TAG_Int : TagType := 3.
Definition TAG_Long : TagType := 4.
Definition TAG_Float : TagType := 5.
Definition TAG_Double : TagType := 6.
Definition TAG_Byte_Array : TagType := 7.
Definition TAG_String : TagType := 8.
Definition TAG_List : TagType := 9.
Definition TAG_Compound : TagType := 10.

(* type Tag interface{}: the dynamic values the decoders store in it *)
Inductive Tag : Type :=
| TNil                                   (* nil *)
| TUint8 (b : byte)                      (* byte *)
| TInt16 (z : Z)
| TInt32 (z : Z)
| TInt64 (z : Z)
| TFloat32 (bits : Z)                    (* math.Float32frombits bits *)
| TFloat64 (bits : Z)                    (* math.Float64frombits bits *)
| TBytes (l : list byte)                 (* []byte *)
| TString (s : string)                   (* string *)
| TCompound (l : list NamedTag)          (* []NamedTag *)
| TListTag (listType : TagType) (elements : list Tag)   (* ListTag *)
with NamedTag : Type :=
| mkNamedTag (tagType : TagType) (name : string) (payload : Tag).

Definition tagType (t : NamedTag) : TagType := let 'mkNamedTag ty _ _ := t in ty.
Definition name (t : NamedTag) : string := let 'mkNamedTag _ n _ := t in n.
Definition payload (t : NamedTag) : Tag := let 'mkNamedTag _ _ p := t in p.

(* string(b) for a byte slice b *)
Definition string_of_slice (s : slice) : string := string_of_list_byte (vis s).

(** ** The decoders *)

Definition decoder : Type := slice -> result (Tag * Z).

Fixpoint lookup {V : Type} (m : list (TagType * V)) (k : TagType) : option V :=
  match m with
  | [] => None
  | (k', v) :: m => if k' =? k then Some v else lookup m k
  end.

(* m[k](payload) for a map of funcs: a missing key yields the nil func *)
Definition call (m : list (TagType * decoder)) (k : TagType) (p : slice)
  : result (Tag * Z) :=
  match lookup m k with
  | Some f => f p
  | None => Panic NilDereference
  end.

Section Decoders.

(* the package-level variable tagParseFuncsRef, as a lookup-and-call *)
Variable tagParseFuncsRef : TagType -> decoder.

Definition parseNamedTag (data : slice) : result (NamedTag * Z) :=
  b <- index data 0 ;;
  let ty := byteZ b in
  '(nm, payloadStart) <-
    (if negb (ty =? TAG_End) then
       l <- reslice data 1 3 ;;
       nameLength <- Uint16 l ;;
       n <- reslice data 3 (add16 3 nameLength) ;;
       Ok (string_of_slice n, add16 3 nameLength)
     else Ok (EmptyString, 1)) ;;
  rest <- slice_from data payloadStart ;;
  '(pl, payloadLength) <- tagParseFuncsRef ty rest ;;
  Ok (mkNamedTag ty nm pl, addUint payloadStart payloadLength).

(* the [for { ... }] loop of parseCompoundTag; [fuel] bounds its turns *)
Fixpoint parseCompoundTag_loop (fuel : nat) (payload : slice)
         (ret : list NamedTag) (current : Z) : result (Tag * Z) :=
  match fuel with
  | O => OutOfFuel
  | S fuel =>
      rest <- slice_from payload current ;;
      '(tag, length) <- parseNamedTag rest ;;
      let current := addUint current length in
      if tagType tag =? TAG_End then Ok (TCompound ret, current)
      else parseCompoundTag_loop fuel payload (ret ++ [tag]) current
  end.

Definition parseCompoundTag (fuel : nat) (payload : slice) : result (Tag * Z) :=
  parseCompoundTag_loop fuel payload [] 0.

(* the [for i := 0; i < int(length); i++] loop of parseListTag,
   by the number of turns that remain *)
Fixpoint parseListTag_loop (turns : nat) (payload : slice) (ty : TagType)
         (ret : list Tag) (current : Z) : result (list Tag * Z) :=
  match turns with
  | O => Ok (ret, current)
  | S turns =>
      rest <- slice_from payload current ;;
      '(tag, length) <- tagParseFuncsRef ty rest ;;
      parseListTag_loop turns payload ty (ret ++ [tag]) (addUint current length)
  end.

Definition parseListTag (payload : slice) : result (Tag * Z) :=
  b <- index payload 0 ;;
  let ty := byteZ b in
  l <- reslice payload 1 5 ;;
  length <- Uint32 l ;;
  '(ret, current) <- parseListTag_loop (Z.to_nat length) payload ty [] 5 ;;
  Ok (TListTag ty ret, current).

Definition tagParseFuncs (fuel : nat) : list (TagType * decoder) :=
  [ (TAG_End, fun payload => Ok (TNil, 0));
    (TAG_Byte, fun payload => b <- index payload 0 ;; Ok (TUint8 b, 1));
    (TAG_Short, fun payload =>
       s <- reslice payload 0 2 ;; v <- Uint16 s ;; Ok (TInt16 (toInt16 v), 2));
    (TAG_Int, fun payload =>
       s <- reslice payload 0 4 ;; v <- Uint32 s ;; Ok (TInt32 (toInt32 v), 4));
    (TAG_Long, fun payload =>
       s <- reslice payload 0 8 ;; v <- Uint64 s ;; Ok (TInt64 (toInt64 v), 8));
    (TAG_Float, fun payload =>
       s <- reslice payload 0 4 ;; v <- Uint32 s ;; Ok (TFloat32 v, 4));
    (TAG_Double, fun payload =>
       s <- reslice payload 0 8 ;; v <- Uint64 s ;; Ok (TFloat64 v, 8));
    (TAG_Byte_Array, fun payload =>
       s <- reslice payload 0 4 ;;
       length <- Uint32 s ;;
       a <- reslice payload 4 (add32 4 length) ;;
       Ok (TBytes (vis a), add32 4 length));
    (TAG_String, fun payload =>
       s <- reslice payload 0 2 ;;
       length <- Uint16 s ;;
       a <- reslice payload 2 (add16 2 length) ;;
       Ok (TString (string_of_slice a), add16 2 length));
    (TAG_Compound, parseCompoundTag fuel);
    (TAG_List, parseListTag) ].

End Decoders.

(* tagParseFuncsRef = tagParseFuncs, unfolded [fuel] times *)
Fixpoint tagParseFuncsRef (fuel : nat) : TagType -> decoder :=
  match fuel with
  | O => fun _ _ => OutOfFuel
  | S fuel => call (tagParseFuncs (tagParseFuncsRef fuel) fuel)
  end.

(* the recursion budget ParseNBT hands to the decoders; [fuelFor_enough]
   and [parseNamedTag_any_fuel] below show that it is never exhausted and
   that the outcome is the one of any other sufficient budget *)
Definition fuelFor (data : slice) : nat := List.length (vis data) + 2.

Section Entry.

(* decompress, through compress/gzip and ioutil.ReadAll: the bytes written
   to the buffer ([Ok (Some d)]), a returned error ([Ok None]), or a panic *)
Variable decompress : slice -> result (option slice).

Definition ParseNBT (data : slice) (isCompressed : bool) : result NamedTag :=
  if isCompressed then
    r <- decompress data ;;
    match r with
    | None => Fatal
    | Some decompressed =>
        '(tag, _) <- parseNamedTag (tagParseFuncsRef (fuelFor decompressed))
                                   decompressed ;;
        Ok tag
    end
  else
    '(tag, _) <- parseNamedTag (tagParseFuncsRef (fuelFor data)) data ;;
    Ok tag.

End Entry.

(** ** The renderer *)

Local Open Scope string_scope.

Definition nl : string := String (ascii_of_nat 10) EmptyString.
Definition dq : string := String (ascii_of_nat 34) EmptyString.

Definition typeToString : list (TagType * string) :=
  [ (TAG_End, "TAG_End"); (TAG_Byte, "TAG_Byte"); (TAG_Short, "TAG_Short");
    (TAG_Int, "TAG_Int"); (TAG_Long, "TAG_Long"); (TAG_Float, "TAG_Float");
    (TAG_Double, "TAG_Double"); (TAG_Byte_Array, "TAG_Byte_Array");
    (TAG_String, "TAG_String"); (TAG_List, "TAG_List");
    (TAG_Compound, "TAG_Compound") ]%list.

(* typeToString[t]: a missing key yields the empty string *)
Definition typeName (t : TagType) : string :=
  match lookup typeToString t with
  | Some s => s
  | None => EmptyString
  end.

Fixpoint catAll (l : list string) : string :=
  match l with
  | nil => EmptyString
  | (x :: l)%list => x ++ catAll l
  end.

(* [prefix] behind two spaces for each of [depth] levels *)
Definition indent (depth : nat) (prefix : string) : string :=
  Nat.iter depth (append "  ") prefix.

(* the verb %d *)
Definition fmt_d (z : Z) : string := NilZero.string_of_int (Z.to_int z).

Fixpoint join_d (l : list byte) : string :=
  match l with
  | nil => EmptyString
  | (b :: nil)%list => fmt_d (byteZ b)
  | (b :: l)%list => fmt_d (byteZ b) ++ " " ++ join_d l
  end.

(* [for _, element := range elements { body }], the body appending to the
   buffer *)
Definition forRange {A : Type} (body : string -> A -> result string)
  : list A -> string -> result string :=
  fix range (els : list A) (buffer : string) : result string :=
    match els with
    | nil => Ok buffer
    | (element :: els)%list => buffer <- body buffer element ;; range els buffer
    end.

Section Render.

(* fmt's rendering of floating-point numbers, by their bits, and of
   values that a decoded tree never holds in a scalar position *)
Variable fmtFloat32 fmtFloat64 : Z -> string.
Variable fmtOther : Tag -> string.

(* the verb %v *)
Definition fmt_v (t : Tag) : string :=
  match t with
  | TNil => "<nil>"
  | TUint8 b => fmt_d (byteZ b)
  | TInt16 z | TInt32 z | TInt64 z => fmt_d z
  | TFloat32 bits => fmtFloat32 bits
  | TFloat64 bits => fmtFloat64 bits
  | TBytes l => "[" ++ join_d l ++ "]"
  | TString s => s
  | _ => fmtOther t
  end.

Fixpoint printUnnamedTag (buffer : string) (prefix : string) (tag : Tag)
         (ty : TagType) {struct tag} : result string :=
  let buffer := buffer ++ (prefix ++ typeName ty) in
  if (ty =? TAG_Compound)%Z then
    match tag with
    | TCompound elements =>
        let buffer := buffer ++ (": " ++ fmt_d (Z.of_nat (List.length elements))
                                 ++ " entries" ++ nl ++ prefix ++ "{" ++ nl) in
        buffer <- forRange (fun buffer element =>
                              Print buffer ("  " ++ prefix) element)
                           elements buffer ;;
        Ok (buffer ++ (prefix ++ "}" ++ nl))
    | _ => Panic InterfaceConversion
    end
  else if (ty =? TAG_List)%Z then
    match tag with
    | TListTag listType elements =>
        let buffer := buffer ++ (": " ++ fmt_d (Z.of_nat (List.length elements))
                                 ++ " entries of type " ++ typeName listType
                                 ++ nl ++ prefix ++ "{" ++ nl) in
        buffer <- forRange (fun buffer element =>
                              printUnnamedTag buffer ("  " ++ prefix)
                                              element listType)
                           elements buffer ;;
        Ok (buffer ++ (prefix ++ "}" ++ nl))
    | _ => Panic InterfaceConversion
    end
  else Ok (buffer ++ (": " ++ fmt_v tag ++ nl))

with Print (buffer : string) (prefix : string) (tag : NamedTag)
           {struct tag} : result string :=
  let '(mkNamedTag ty nm pl) := tag in
  let buffer := buffer ++ (prefix ++ typeName ty) in
  if (ty =? TAG_Compound)%Z then
    match pl with
    | TCompound elements =>
        let buffer := buffer ++ ("(" ++ dq ++ nm ++ dq ++ "): "
                                 ++ fmt_d (Z.of_nat (List.length elements))
                                 ++ " entries" ++ nl ++ prefix ++ "{" ++ nl) in
        buffer <- forRange (fun buffer element =>
                              Print buffer ("  " ++ prefix) element)
                           elements buffer ;;
        Ok (buffer ++ (prefix ++ "}" ++ nl))
    | _ => Panic InterfaceConversion
    end
  else if (ty =? TAG_List)%Z then
    match pl with
    | TListTag listType elements =>
        let buffer := buffer ++ ("(" ++ dq ++ nm ++ dq ++ "): "
                                 ++ fmt_d (Z.of_nat (List.length elements))
                                 ++ " entries of type " ++ typeName listType
                                 ++ nl ++ prefix ++ "{" ++ nl) in
        buffer <- forRange (fun buffer element =>
                              printUnnamedTag buffer ("  " ++ prefix)
                                              element listType)
                           elements buffer ;;
        Ok (buffer ++ (prefix ++ "}" ++ nl))
    | _ => Panic InterfaceConversion
    end
  else Ok (buffer ++ ("(" ++ dq ++ nm ++ dq ++ "): " ++ fmt_v pl ++ nl)).

(** The text the renderer is to produce for a tag at nesting depth
    [depth] below a tag rendered with [prefix]: every line of a tag at
    that depth starts with two more spaces per level. *)

Fixpoint renderBody (prefix : string) (depth : nat) (v : Tag) {struct v}
  : string :=
  match v with
  | TCompound children =>
      fmt_d (Z.of_nat (List.length children)) ++ " entries" ++ nl
      ++ indent depth prefix ++ "{" ++ nl
      ++ catAll (map (renderNamed prefix (S depth)) children)
      ++ indent depth prefix ++ "}" ++ nl
  | TListTag elementType elements =>
      fmt_d (Z.of_nat (List.length elements)) ++ " entries of type "
      ++ typeName elementType ++ nl
      ++ indent depth prefix ++ "{" ++ nl
      ++ catAll (map (fun e => indent (S depth) prefix ++ typeName elementType
                               ++ ": " ++ renderBody prefix (S depth) e)
                     elements)
      ++ indent depth prefix ++ "}" ++ nl
  | _ => fmt_v v ++ nl
  end
with renderNamed (prefix : string) (depth : nat) (t : NamedTag) {struct t}
  : string :=
  match t with
  | mkNamedTag ty nm pl =>
      indent depth prefix ++ typeName ty ++ "(" ++ dq ++ nm ++ dq ++ "): "
      ++ renderBody prefix depth pl
  end.

Definition renderUnnamed (prefix : string) (depth : nat) (ty : TagType)
           (v : Tag) : string :=
  indent depth prefix ++ typeName ty ++ ": " ++ renderBody prefix depth v.

End Render.

Local Close Scope string_scope.

(** ** The command *)

Section Command.

(* os.Args, ioutil.ReadFile (the bytes read and the error, if any, as the
   text fmt.Print shows for it) and the collaborators of the library *)
Variable Args : list string.
Variable ReadFile : string -> slice * option string.
Variable decompress : slice -> result (option slice).
Variable fmtFloat32 fmtFloat64 : Z -> string.
Variable fmtOther : Tag -> string.

(* func main: what it has written to the standard output, and how it ends *)
Definition main : string * result unit :=
  match nth_error Args 1 with
  | None => (EmptyString, Panic IndexOutOfRange)
  | Some path =>
      let '(buffer, err) := ReadFile path in
      let out := match err with
                 | Some e => e
                 | None => EmptyString
                 end in
      match nth_error Args 2 with
      | None => (out, Panic IndexOutOfRange)
      | Some flag =>
          match ParseNBT decompress buffer (String.eqb flag "true") with
          | Ok result =>
              match Print fmtFloat32 fmtFloat64 fmtOther
                          EmptyString EmptyString result with
              | Ok strBuffer => (out ++ strBuffer, Ok tt)%string
              | Panic p => (out, Panic p)
              | Fatal => (out, Fatal)
              | OutOfFuel => (out, OutOfFuel)
              end
          | Panic p => (out, Panic p)
          | Fatal => (out, Fatal)
          | OutOfFuel => (out, OutOfFuel)
          end
      end
  end.

End Command.

(** ** Specification-side definitions *)

(* the big-endian value of a byte sequence *)
Definition bigEndian (l : list byte) : Z :=
  fold_left (fun acc b => acc * 256 + byteZ b) l 0.

(* Go keeps cap(s) within an int *)
Definition fits (s : slice) : Prop := cap s < 2 ^ 63.

(* [s'] agrees with [s] on the whole backing array of [s] and is at least
   as long: [s] is a view of [s'] cut short *)
Definition extends (s s' : slice) : Prop :=
  (exists e, backing s' = backing s ++ e) /\ len s <= len s'.

(* an outcome that does not come from a run-time bounds check *)
Definition decisive {A : Type} (r : result A) : Prop :=
  match r with
  | Panic IndexOutOfRange | Panic SliceBoundsOutOfRange | OutOfFuel => False
  | _ => True
  end.

(* the wire layout of the scalar payloads: bytes consumed and value *)
Definition scalarWidth (ty : TagType) (bytes : list byte) : Z :=
  match ty with
  | 1 => 1
  | 2 => 2
  | 3 => 4
  | 4 => 8
  | 5 => 4
  | 6 => 8
  | 7 => 4 + bigEndian (firstn 4 bytes)
  | 8 => 2 + bigEndian (firstn 2 bytes)
  | _ => 0
  end.

Definition scalarValue (ty : TagType) (bytes : list byte) : Tag :=
  match ty with
  | 1 => TUint8 (hd x00 bytes)
  | 2 => TInt16 (toInt16 (bigEndian (firstn 2 bytes)))
  | 3 => TInt32 (toInt32 (bigEndian (firstn 4 bytes)))
  | 4 => TInt64 (toInt64 (bigEndian (firstn 8 bytes)))
  | 5 => TFloat32 (bigEndian (firstn 4 bytes))
  | 6 => TFloat64 (bigEndian (firstn 8 bytes))
  | 7 => TBytes (firstn (Z.to_nat (bigEndian (firstn 4 bytes))) (skipn 4 bytes))
  | 8 => TString (string_of_list_byte
                    (firstn (Z.to_nat (bigEndian (firstn 2 bytes))) (skipn 2 bytes)))
  | _ => TNil
  end.

(* the bytes [lo, lo+n) of the backing array *)
Definition bytesAt (s : slice) (lo n : Z) : list byte :=
  firstn (Z.to_nat n) (skipn (Z.to_nat lo) (backing s)).

(* the name length field of a named tag *)
Definition nameLengthOf (data : slice) : Z := bigEndian (bytesAt data 1 2).

(* the count field of a list payload *)
Definition countOf (payload : slice) : Z := bigEndian (bytesAt payload 1 4).

(* the bytes a scalar payload needs are there, and its length prefix
   does not overflow the width of the prefix *)
Definition scalarReadable (ty : TagType) (payload : slice) : Prop :=
  scalarWidth ty (backing payload) <= cap payload /\
  (ty = TAG_Byte -> 1 <= len payload) /\
  (ty = TAG_Byte_Array -> scalarWidth ty (backing payload) < 2 ^ 32) /\
  (ty = TAG_String -> scalarWidth ty (backing payload) < 2 ^ 16).

Fixpoint sumZ (l : list Z) : Z :=
  match l with
  | [] => 0
  | x :: l => x + sumZ l
  end.

(* [children], none of type End, are what the named-tag decoder returns at
   the consecutive offsets [off], [off + n1], [off + n1 + n2], ... of
   [payload], consuming [lens] = n1, n2, ... bytes *)
Fixpoint childrenAt (ref : TagType -> decoder) (payload : slice) (off : Z)
         (children : list NamedTag) (lens : list Z) : Prop :=
  match children, lens with
  | [], [] => True
  | c :: cs, n :: ns =>
      (exists rest, slice_from payload off = Ok rest /\
                    parseNamedTag ref rest = Ok (c, n)) /\
      tagType c <> TAG_End /\
      childrenAt ref payload (off + n) cs ns
  | _, _ => False
  end.

(* [elems] are what the payload decoder of type [ty] returns at the
   consecutive offsets of [payload], without any name field *)
Fixpoint elementsAt (ref : TagType -> decoder) (payload : slice) (ty : TagType)
         (off : Z) (elems : list Tag) (lens : list Z) : Prop :=
  match elems, lens with
  | [], [] => True
  | e :: es, n :: ns =>
      (exists rest, slice_from payload off = Ok rest /\
                    ref ty rest = Ok (e, n)) /\
      elementsAt ref payload ty (off + n) es ns
  | _, _ => False
  end.

(* the dynamic type of a value is the one its tag type announces,
   all the way down *)
Fixpoint shape (ty : TagType) (v : Tag) {struct v} : bool :=
  match v with
  | TNil => ty =? TAG_End
  | TUint8 _ => ty =? TAG_Byte
  | TInt16 _ => ty =? TAG_Short
  | TInt32 _ => ty =? TAG_Int
  | TInt64 _ => ty =? TAG_Long
  | TFloat32 _ => ty =? TAG_Float
  | TFloat64 _ => ty =? TAG_Double
  | TBytes _ => ty =? TAG_Byte_Array
  | TString _ => ty =? TAG_String
  | TCompound l => (ty =? TAG_Compound) && forallb shapeNamed l
  | TListTag listType elements =>
      (ty =? TAG_List) && forallb (shape listType) elements
  end
with shapeNamed (t : NamedTag) {struct t} : bool :=
  match t with
  | mkNamedTag ty _ pl => shape ty pl
  end.

(* no End tag among the children of a Compound, at any depth, and every
   child of a known type *)
Fixpoint properChildren (v : Tag) {struct v} : bool :=
  match v with
  | TCompound l => forallb properNamed l
  | TListTag _ elements => forallb properChildren elements
  | _ => true
  end
with properNamed (t : NamedTag) {struct t} : bool :=
  match t with
  | mkNamedTag ty _ pl => (1 <=? ty) && (ty <=? 10) && properChildren pl
  end.

(** ** Invariants of a decoder table *)

(* a decode consumes no more than the capacity of its slice *)
Definition bounded (d : TagType -> decoder) : Prop :=
  forall ty s v n, fits s -> d ty s = Ok (v, n) -> 0 <= n <= cap s.

(* [d2] returns what [d1] returns, wherever [d1] has fuel enough *)
Definition le_fuel (d1 d2 : TagType -> decoder) : Prop :=
  forall ty s, d1 ty s <> OutOfFuel -> d2 ty s = d1 ty s.

(* a decode on a slice cut short that neither hits a bounds check nor
   runs out of fuel is the decode on the longer slice *)
Definition local (d : TagType -> decoder) : Prop :=
  forall ty s s', extends s s' -> decisive (d ty s) -> d ty s' = d ty s.

(* a decoded value has the shape of its tag type *)
Definition shaped (d : TagType -> decoder) : Prop :=
  forall ty s v n, d ty s = Ok (v, n) -> shape ty v = true.

(* a decoded value holds no End tag among the children of a Compound *)
Definition proper (d : TagType -> decoder) : Prop :=
  forall ty s v n, d ty s = Ok (v, n) -> properChildren v = true.

(* a decode that returns returns the same on every shorter view of its
   slice that still holds the bytes it consumed *)
Definition tight (d : TagType -> decoder) : Prop :=
  forall ty s s' v n,
    fits s -> extends s' s -> n <= len s' ->
    d ty s = Ok (v, n) -> d ty s' = Ok (v, n).

(** ** Induction over trees *)

Section TagInduction.

Variable P : Tag -> Prop.
Variable Q : NamedTag -> Prop.
Hypothesis HNil : P TNil.
Hypothesis HUint8 : forall b, P (TUint8 b).
Hypothesis HInt16 : forall z, P (TInt16 z).
Hypothesis HInt32 : forall z, P (TInt32 z).
Hypothesis HInt64 : forall z, P (TInt64 z).
Hypothesis HFloat32 : forall z, P (TFloat32 z).
Hypothesis HFloat64 : forall z, P (TFloat64 z).
Hypothesis HBytes : forall l, P (TBytes l).
Hypothesis HString : forall s, P (TString s).
Hypothesis HCompound : forall l, Forall Q l -> P (TCompound l).
Hypothesis HListTag : forall ty l, Forall P l -> P (TListTag ty l).
Hypothesis HNamed : forall ty nm pl, P pl -> Q (mkNamedTag ty nm pl).

Fixpoint Tag_nested_ind (v : Tag) {struct v} : P v :=
  match v with
  | TNil => HNil
  | TUint8 b => HUint8 b
  | TInt16 z => HInt16 z
  | TInt32 z => HInt32 z
  | TInt64 z => HInt64 z
  | TFloat32 z => HFloat32 z
  | TFloat64 z => HFloat64 z
  | TBytes l => HBytes l
  | TString s => HString s
  | TCompound l =>
      HCompound l
        ((fix all (l : list NamedTag) : Forall Q l :=
            match l with
            | [] => Forall_nil Q
            | t :: l => Forall_cons t (NamedTag_nested_ind t) (all l)
            end) l)
  | TListTag ty l =>
      HListTag ty l
        ((fix all (l : list Tag) : Forall P l :=
            match l with
            | [] => Forall_nil P
            | t :: l => Forall_cons t (Tag_nested_ind t) (all l)
            end) l)
  end
with NamedTag_nested_ind (t : NamedTag) {struct t} : Q t :=
  match t with
  | mkNamedTag ty nm pl => HNamed ty nm pl (Tag_nested_ind pl)
  end.

End TagInduction.

(** ** Sample inputs *)

(* a Byte tag with a 65533-byte name, complete: 65537 bytes *)
Definition longNameTag : slice :=
  buffer ([x01; xff; xfd] ++ repeat x41 (Z.to_nat 65533) ++ [x05]).

Definition twoChildren : slice :=
  buffer [x01; x00; x01; x78; x07; x02; x00; x01; x79; x01; x00; x00].

Definition twoShorts : slice :=
  buffer [x02; x00; x00; x00; x02; x00; x01; xff; xff].

Definition oneChild : slice :=
  buffer [x0a; x00; x00; x01; x00; x01; x78; x07; x00].

(** * Properties *)

(** ** Outcomes and machine integers *)

Lemma bind_Ok {A B : Type} (r : result A) (k : A -> result B) (b : B) :
  bind r k = Ok b -> exists a, r = Ok a /\ k a = Ok b.
Proof. destruct r; simpl; intros H; try discriminate. eauto. Qed.

Ltac bind_inv H :=
  let a := fresh "a" in
  let E := fresh "E" in
  apply bind_Ok in H; destruct H as (a & E & H); cbv beta in H.

Lemma byteZ_range (b : byte) : 0 <= byteZ b < 256.
Proof.
  unfold byteZ. pose proof (Byte.to_N_bounded b). lia.
Qed.

Lemma lor_shiftl (a b n : Z) :
  0 <= n -> 0 <= a < 2 ^ n -> Z.lor a (Z.shiftl b n) = a + b * 2 ^ n.
Proof.
  intros Hn Ha.
  assert (Hland : Z.land a (Z.shiftl b n) = 0).
  { apply Z.bits_inj'; intros k Hk.
    rewrite Z.land_spec, Z.bits_0.
    destruct (Z.lt_ge_cases k n) as [Hlt | Hge].
    - rewrite (Z.shiftl_spec_low b n k Hlt). apply andb_false_r.
    - replace a with (a mod 2 ^ n) by (apply Z.mod_small; lia).
      rewrite Z.mod_pow2_bits_high by lia. reflexivity. }
  rewrite <- Z.lxor_lor by exact Hland.
  rewrite <- Z.add_nocarry_lxor by exact Hland.
  rewrite Z.shiftl_mul_pow2 by lia. reflexivity.
Qed.

(** ** Slices *)

Lemma index_Ok (s : slice) (i : Z) (b : byte) :
  index s i = Ok b <->
  0 <= i < len s /\ nth_error (vis s) (Z.to_nat i) = Some b.
Proof.
  unfold index. split.
  - destruct ((0 <=? i) && (i <? len s)) eqn:E; [|discriminate].
    apply andb_true_iff in E. destruct E as [E1 E2].
    destruct (nth_error (vis s) (Z.to_nat i)) eqn:N; [|discriminate].
    intros H; inversion H; subst. split; [lia | reflexivity].
  - intros [Hi Hn].
    replace ((0 <=? i) && (i <? len s)) with true
      by (symmetry; apply andb_true_iff; lia).
    rewrite Hn. reflexivity.
Qed.

Lemma index_in_range (s : slice) (i : Z) :
  0 <= i < len s -> exists b, index s i = Ok b.
Proof.
  intros Hi. unfold len in Hi.
  destruct (nth_error (vis s) (Z.to_nat i)) eqn:N.
  - exists b. apply index_Ok. unfold len. split; [lia | exact N].
  - apply nth_error_None in N. lia.
Qed.

Lemma index_out_of_range (s : slice) (i : Z) :
  ~ (0 <= i < len s) -> index s i = Panic IndexOutOfRange.
Proof.
  intros Hi. unfold index.
  destruct ((0 <=? i) && (i <? len s)) eqn:E; [|reflexivity].
  apply andb_true_iff in E. lia.
Qed.

Lemma len_le_cap (s : slice) : 0 <= len s <= cap s.
Proof. unfold len, cap, backing. rewrite length_app. lia. Qed.

Lemma reslice_Ok (s : slice) (lo hi : Z) (s' : slice) :
  reslice s lo hi = Ok s' <->
  0 <= lo <= hi /\ hi <= cap s /\
  s' = mkSlice (firstn (Z.to_nat (hi - lo)) (skipn (Z.to_nat lo) (backing s)))
               (skipn (Z.to_nat hi) (backing s)).
Proof.
  unfold reslice. split.
  - destruct ((0 <=? lo) && (lo <=? hi) && (hi <=? cap s)) eqn:E; [|discriminate].
    apply andb_true_iff in E. destruct E as [E E3].
    apply andb_true_iff in E. destruct E as [E1 E2].
    intros H; inversion H; subst. repeat split; lia.
  - intros (H1 & H2 & ->).
    replace ((0 <=? lo) && (lo <=? hi) && (hi <=? cap s)) with true; [reflexivity|].
    symmetry. rewrite !andb_true_iff. lia.
Qed.

Lemma reslice_Panic (s : slice) (lo hi : Z) :
  ~ (0 <= lo <= hi /\ hi <= cap s) ->
  reslice s lo hi = Panic SliceBoundsOutOfRange.
Proof.
  intros H. unfold reslice.
  destruct ((0 <=? lo) && (lo <=? hi) && (hi <=? cap s)) eqn:E; [|reflexivity].
  rewrite !andb_true_iff in E. lia.
Qed.

Lemma reslice_len_cap (s : slice) (lo hi : Z) (s' : slice) :
  reslice s lo hi = Ok s' ->
  0 <= lo <= hi /\ hi <= cap s /\ len s' = hi - lo /\ cap s' = cap s - lo.
Proof.
  intros H. apply reslice_Ok in H. destruct H as (H1 & H2 & ->).
  unfold len, cap, backing in *. simpl.
  repeat rewrite ?length_app, ?length_firstn, ?length_skipn in *.
  repeat split; lia.
Qed.

Lemma slice_from_len_cap (s : slice) (lo : Z) (s' : slice) :
  slice_from s lo = Ok s' ->
  0 <= lo <= len s /\ len s' = len s - lo /\ cap s' = cap s - lo.
Proof.
  unfold slice_from. intros H. apply reslice_len_cap in H. lia.
Qed.

Lemma index_nth (s : slice) (i : Z) (b : byte) :
  0 <= i -> nth_error (vis s) (Z.to_nat i) = Some b -> index s i = Ok b.
Proof.
  intros Hi Hn. apply index_Ok. split; [|exact Hn].
  assert (Z.to_nat i < List.length (vis s))%nat
    by (apply nth_error_Some; congruence).
  unfold len. lia.
Qed.

(** ** Big-endian reads *)

Ltac read_index E :=
  match goal with
  | |- context [index ?s ?i] =>
      erewrite (index_nth s i) by (first [lia | rewrite E; reflexivity])
  end; cbn [bind].

Lemma Uint16_spec (s : slice) :
  2 <= len s -> Uint16 s = Ok (bigEndian (firstn 2 (vis s))).
Proof.
  intros H. unfold len in H.
  destruct (vis s) as [|b0 [|b1 l]] eqn:E; simpl in H; try lia.
  unfold Uint16. do 2 read_index E.
  unfold bigEndian; cbn [firstn fold_left].
  pose proof (byteZ_range b0). pose proof (byteZ_range b1).
  rewrite lor_shiftl by lia. f_equal. lia.
Qed.

Lemma Uint32_spec (s : slice) :
  4 <= len s -> Uint32 s = Ok (bigEndian (firstn 4 (vis s))).
Proof.
  intros H. unfold len in H.
  destruct (vis s) as [|b0 [|b1 [|b2 [|b3 l]]]] eqn:E; simpl in H; try lia.
  unfold Uint32. do 4 read_index E.
  unfold bigEndian; cbn [firstn fold_left].
  pose proof (byteZ_range b0). pose proof (byteZ_range b1).
  pose proof (byteZ_range b2). pose proof (byteZ_range b3).
  rewrite (lor_shiftl _ _ 8) by lia.
  rewrite (lor_shiftl _ _ 16) by lia.
  rewrite (lor_shiftl _ _ 24) by lia. f_equal. lia.
Qed.

Lemma Uint64_spec (s : slice) :
  8 <= len s -> Uint64 s = Ok (bigEndian (firstn 8 (vis s))).
Proof.
  intros H. unfold len in H.
  destruct (vis s) as [|b0 [|b1 [|b2 [|b3 [|b4 [|b5 [|b6 [|b7 l]]]]]]]] eqn:E;
    simpl in H; try lia.
  unfold Uint64. do 8 read_index E.
  unfold bigEndian; cbn [firstn fold_left].
  pose proof (byteZ_range b0). pose proof (byteZ_range b1).
  pose proof (byteZ_range b2). pose proof (byteZ_range b3).
  pose proof (byteZ_range b4). pose proof (byteZ_range b5).
  pose proof (byteZ_range b6). pose proof (byteZ_range b7).
  rewrite (lor_shiftl _ _ 8) by lia.
  rewrite (lor_shiftl _ _ 16) by lia.
  rewrite (lor_shiftl _ _ 24) by lia.
  rewrite (lor_shiftl _ _ 32) by lia.
  rewrite (lor_shiftl _ _ 40) by lia.
  rewrite (lor_shiftl _ _ 48) by lia.
  rewrite (lor_shiftl _ _ 56) by lia. f_equal. lia.
Qed.

Lemma bigEndian_app (l : list byte) (b : byte) :
  bigEndian (l ++ [b]) = bigEndian l * 256 + byteZ b.
Proof. unfold bigEndian. rewrite fold_left_app. reflexivity. Qed.

Lemma bigEndian_range (l : list byte) :
  0 <= bigEndian l < 256 ^ Z.of_nat (List.length l).
Proof.
  induction l as [|b l IH] using rev_ind.
  - unfold bigEndian. simpl. lia.
  - rewrite bigEndian_app, length_app. simpl List.length.
    pose proof (byteZ_range b).
    replace (Z.of_nat (List.length l + 1)) with (Z.of_nat (List.length l) + 1) by lia.
    rewrite Z.pow_add_r by lia. lia.
Qed.

Lemma reslice_vis (s : slice) (lo hi : Z) (s' : slice) :
  reslice s lo hi = Ok s' ->
  vis s' = firstn (Z.to_nat (hi - lo)) (skipn (Z.to_nat lo) (backing s)) /\
  len s' = hi - lo.
Proof.
  intros H. pose proof (reslice_len_cap _ _ _ _ H) as (_ & _ & Hl & _).
  apply reslice_Ok in H. destruct H as (_ & _ & ->). simpl in *. auto.
Qed.

Lemma firstn_exact {A : Type} (l : list A) (n : nat) :
  List.length l = n -> firstn n l = l.
Proof. intros <-. apply firstn_all. Qed.

Lemma Uint16_exact (s : slice) :
  len s = 2 -> Uint16 s = Ok (bigEndian (vis s)) /\ 0 <= bigEndian (vis s) < 2 ^ 16.
Proof.
  intros H. rewrite Uint16_spec by lia. unfold len in H.
  rewrite firstn_exact by lia. split; [reflexivity|].
  pose proof (bigEndian_range (vis s)) as R.
  replace (Z.of_nat (List.length (vis s))) with 2 in R by lia. lia.
Qed.

Lemma Uint32_exact (s : slice) :
  len s = 4 -> Uint32 s = Ok (bigEndian (vis s)) /\ 0 <= bigEndian (vis s) < 2 ^ 32.
Proof.
  intros H. rewrite Uint32_spec by lia. unfold len in H.
  rewrite firstn_exact by lia. split; [reflexivity|].
  pose proof (bigEndian_range (vis s)) as R.
  replace (Z.of_nat (List.length (vis s))) with 4 in R by lia. lia.
Qed.

Lemma Uint64_exact (s : slice) :
  len s = 8 -> Uint64 s = Ok (bigEndian (vis s)) /\ 0 <= bigEndian (vis s) < 2 ^ 64.
Proof.
  intros H. rewrite Uint64_spec by lia. unfold len in H.
  rewrite firstn_exact by lia. split; [reflexivity|].
  pose proof (bigEndian_range (vis s)) as R.
  replace (Z.of_nat (List.length (vis s))) with 8 in R by lia. lia.
Qed.

(** ** The dispatch table *)

Lemma call_unsupported (ref : TagType -> decoder) (fuel : nat)
      (ty : TagType) (s : slice) :
  ~ (0 <= ty <= 10) -> call (tagParseFuncs ref fuel) ty s = Panic NilDereference.
Proof.
  intros H. unfold call, tagParseFuncs. cbn [lookup].
  repeat match goal with
         | |- context [if ?k =? ty then _ else _] =>
             destruct (k =? ty) eqn:E;
             [apply Z.eqb_eq in E; cbv in E; lia | clear E]
         end.
  reflexivity.
Qed.

Ltac table_simpl :=
  cbv beta iota delta
      [call tagParseFuncs lookup Z.eqb Pos.eqb TAG_End TAG_Byte TAG_Short
       TAG_Int TAG_Long TAG_Float TAG_Double TAG_Byte_Array TAG_String
       TAG_List TAG_Compound].

Ltac table_simpl_in H :=
  cbv beta iota delta
      [call tagParseFuncs lookup Z.eqb Pos.eqb TAG_End TAG_Byte TAG_Short
       TAG_Int TAG_Long TAG_Float TAG_Double TAG_Byte_Array TAG_String
       TAG_List TAG_Compound] in H.

Ltac case_ty ty :=
  let H := fresh "Hty" in
  destruct (Z_le_dec 0 ty) as [H|H];
  [ destruct (Z_le_dec ty 10) as [?|?];
    [ assert (ty = 0 \/ ty = 1 \/ ty = 2 \/ ty = 3 \/ ty = 4 \/ ty = 5 \/
              ty = 6 \/ ty = 7 \/ ty = 8 \/ ty = 9 \/ ty = 10) as H' by lia;
      destruct H' as [->|[->|[->|[->|[->|[->|[->|[->|[->|[->| ->]]]]]]]]]]
    | rewrite !call_unsupported by lia ]
  | rewrite !call_unsupported by lia ].

Ltac step H :=
  match type of H with
  | bind ?r ?k = Ok _ => bind_inv H
  | (let '(_, _) := ?a in _) = Ok _ => destruct a
  | Ok _ = Ok _ => inversion H; subst; clear H
  | (if ?c then _ else _) = Ok _ => destruct c eqn:?
  | Panic _ = Ok _ => discriminate H
  | OutOfFuel = Ok _ => discriminate H
  end.

Ltac slice_facts :=
  repeat match goal with
         | H : reslice ?s ?lo ?hi = Ok ?s' |- _ =>
             lazymatch goal with
             | _ : cap s' = cap s - lo |- _ => fail
             | _ => pose proof (reslice_len_cap _ _ _ _ H) as (? & ? & ? & ?)
             end
         | H : slice_from ?s ?lo = Ok ?s' |- _ =>
             lazymatch goal with
             | _ : cap s' = cap s - lo |- _ => fail
             | _ => pose proof (slice_from_len_cap _ _ _ H) as (? & ? & ?)
             end
         | H : index ?s ?i = Ok ?b |- _ =>
             lazymatch goal with
             | _ : 0 <= i < len s |- _ => fail
             | _ => pose proof (proj1 (proj1 (index_Ok _ _ _) H))
             end
         end.

Lemma addUint_small (a b : Z) : 0 <= a + b < 2 ^ 64 -> addUint a b = a + b.
Proof. intros H. unfold addUint, wrap64. apply Z.mod_small. exact H. Qed.

Lemma add16_no_wrap (a b : Z) :
  0 <= a -> 0 <= b < 2 ^ 16 -> a <= add16 a b -> a < 2 ^ 16 -> add16 a b = a + b.
Proof.
  intros Ha Hb Hle Ha'. unfold add16, wrap16 in *.
  destruct (Z_lt_dec (a + b) (2 ^ 16)).
  - apply Z.mod_small. lia.
  - exfalso. replace (a + b) with ((a + b - 2 ^ 16) + 1 * 2 ^ 16) in Hle by lia.
    rewrite Z.mod_add in Hle by lia. rewrite Z.mod_small in Hle by lia. lia.
Qed.

Lemma add32_no_wrap (a b : Z) :
  0 <= a -> 0 <= b < 2 ^ 32 -> a <= add32 a b -> a < 2 ^ 32 -> add32 a b = a + b.
Proof.
  intros Ha Hb Hle Ha'. unfold add32, wrap32 in *.
  destruct (Z_lt_dec (a + b) (2 ^ 32)).
  - apply Z.mod_small. lia.
  - exfalso. replace (a + b) with ((a + b - 2 ^ 32) + 1 * 2 ^ 32) in Hle by lia.
    rewrite Z.mod_add in Hle by lia. rewrite Z.mod_small in Hle by lia. lia.
Qed.

(** ** A decode never consumes more than the capacity *)

Section Bounded.

Variable ref : TagType -> decoder.
Hypothesis ref_bounded : bounded ref.

Lemma parseNamedTag_bounded (data : slice) (t : NamedTag) (n : Z) :
  fits data -> parseNamedTag ref data = Ok (t, n) -> 1 <= n <= cap data.
Proof.
  unfold fits, parseNamedTag. intros Hf H.
  repeat step H. slice_facts.
  match goal with
  | H : ref _ _ = Ok _ |- _ => apply ref_bounded in H; [|unfold fits; lia]
  end.
  pose proof (len_le_cap data).
  assert (1 <= z) as Hz.
  { destruct (negb (byteZ a =? TAG_End)); repeat step E0; slice_facts; lia. }
  rewrite addUint_small by lia. lia.
Qed.

Lemma parseCompoundTag_loop_bounded (fuel : nat) (payload : slice)
      (ret : list NamedTag) (current : Z) (v : Tag) (n : Z) :
  fits payload -> 0 <= current ->
  parseCompoundTag_loop ref fuel payload ret current = Ok (v, n) ->
  current + 1 <= n <= cap payload.
Proof.
  unfold fits. intros Hf. revert ret current.
  induction fuel as [|fuel IH]; intros ret current Hc H; [discriminate|].
  cbn [parseCompoundTag_loop] in H.
  do 3 step H. slice_facts.
  match goal with
  | H : parseNamedTag _ _ = Ok _ |- _ =>
      apply parseNamedTag_bounded in H; [|unfold fits; lia]
  end.
  pose proof (len_le_cap payload).
  rewrite addUint_small in H by lia.
  step H.
  - step H. lia.
  - apply IH in H; lia.
Qed.

Lemma parseListTag_loop_bounded (turns : nat) (payload : slice) (ty : TagType)
      (ret : list Tag) (current : Z) (ret' : list Tag) (n : Z) :
  fits payload -> 0 <= current <= cap payload ->
  parseListTag_loop ref turns payload ty ret current = Ok (ret', n) ->
  current <= n <= cap payload.
Proof.
  unfold fits. intros Hf. revert ret current.
  induction turns as [|turns IH]; intros ret current Hc H.
  - cbn [parseListTag_loop] in H. step H. lia.
  - cbn [parseListTag_loop] in H.
    do 3 step H. slice_facts.
    match goal with
    | H : ref _ _ = Ok _ |- _ => apply ref_bounded in H; [|unfold fits; lia]
    end.
    rewrite addUint_small in H by lia.
    apply IH in H; lia.
Qed.

Lemma parseListTag_bounded (payload : slice) (v : Tag) (n : Z) :
  fits payload -> parseListTag ref payload = Ok (v, n) -> 5 <= n <= cap payload.
Proof.
  unfold parseListTag. intros Hf H. repeat step H. slice_facts.
  match goal with
  | H : parseListTag_loop _ _ _ _ _ _ = Ok _ |- _ =>
      apply parseListTag_loop_bounded in H; [lia | exact Hf | lia]
  end.
Qed.

Lemma tagParseFuncs_bounded (fuel : nat) : bounded (call (tagParseFuncs ref fuel)).
Proof.
  intros ty s v n Hf. case_ty ty; cbn; intros H; try discriminate;
    try (repeat step H; slice_facts; pose proof (len_le_cap s); lia).
  - (* TAG_List *)
    apply parseListTag_bounded in H; [lia | exact Hf].
  - (* TAG_Compound *)
    apply parseCompoundTag_loop_bounded in H; [lia | exact Hf | lia].
Qed.

End Bounded.

Lemma tagParseFuncsRef_bounded (fuel : nat) : bounded (tagParseFuncsRef fuel).
Proof.
  induction fuel as [|fuel IH].
  - intros ty s v n _ H. discriminate.
  - cbn [tagParseFuncsRef]. apply tagParseFuncs_bounded. exact IH.
Qed.

(** ** More fuel changes no outcome *)

Lemma bind_mono {A B : Type} (r1 r2 : result A) (k1 k2 : A -> result B) :
  (r1 <> OutOfFuel -> r2 = r1) ->
  (forall a, r1 = Ok a -> k1 a <> OutOfFuel -> k2 a = k1 a) ->
  bind r1 k1 <> OutOfFuel -> bind r2 k2 = bind r1 k1.
Proof.
  intros Hr Hk H. destruct r1; cbn [bind] in *;
    try (rewrite Hr by discriminate; cbn [bind]; auto; fail).
  congruence.
Qed.

Section MoreFuel.

Variables ref1 ref2 : TagType -> decoder.
Hypothesis ref_le : le_fuel ref1 ref2.

Lemma parseNamedTag_mono (data : slice) :
  parseNamedTag ref1 data <> OutOfFuel ->
  parseNamedTag ref2 data = parseNamedTag ref1 data.
Proof.
  unfold parseNamedTag.
  apply bind_mono; [reflexivity | intros b _].
  apply bind_mono; [reflexivity | intros [nm payloadStart] _].
  apply bind_mono; [reflexivity | intros rest _].
  apply bind_mono; [apply ref_le | reflexivity].
Qed.

Lemma parseCompoundTag_loop_mono (fuel1 fuel2 : nat) (payload : slice)
      (ret : list NamedTag) (current : Z) :
  (fuel1 <= fuel2)%nat ->
  parseCompoundTag_loop ref1 fuel1 payload ret current <> OutOfFuel ->
  parseCompoundTag_loop ref2 fuel2 payload ret current
  = parseCompoundTag_loop ref1 fuel1 payload ret current.
Proof.
  revert fuel2 ret current.
  induction fuel1 as [|fuel1 IH]; intros fuel2 ret current Hle;
    [intros H; exfalso; apply H; reflexivity|].
  destruct fuel2 as [|fuel2]; [lia|].
  cbn [parseCompoundTag_loop].
  apply bind_mono; [reflexivity | intros rest _].
  apply bind_mono; [apply parseNamedTag_mono | intros [tag length] _].
  destruct (tagType tag =? TAG_End); [reflexivity|].
  apply IH. lia.
Qed.

Lemma parseListTag_loop_mono (turns : nat) (payload : slice) (ty : TagType)
      (ret : list Tag) (current : Z) :
  parseListTag_loop ref1 turns payload ty ret current <> OutOfFuel ->
  parseListTag_loop ref2 turns payload ty ret current
  = parseListTag_loop ref1 turns payload ty ret current.
Proof.
  revert ret current.
  induction turns as [|turns IH]; intros ret current; [reflexivity|].
  cbn [parseListTag_loop].
  apply bind_mono; [reflexivity | intros rest _].
  apply bind_mono; [apply ref_le | intros [tag length] _].
  apply IH.
Qed.

Lemma parseListTag_mono (payload : slice) :
  parseListTag ref1 payload <> OutOfFuel ->
  parseListTag ref2 payload = parseListTag ref1 payload.
Proof.
  unfold parseListTag.
  apply bind_mono; [reflexivity | intros b _].
  apply bind_mono; [reflexivity | intros l _].
  apply bind_mono; [reflexivity | intros length _].
  apply bind_mono; [apply parseListTag_loop_mono | reflexivity].
Qed.

Lemma tagParseFuncs_mono (fuel1 fuel2 : nat) :
  (fuel1 <= fuel2)%nat ->
  le_fuel (call (tagParseFuncs ref1 fuel1)) (call (tagParseFuncs ref2 fuel2)).
Proof.
  intros Hle ty s. case_ty ty; cbn; try (intros _; reflexivity).
  - apply parseListTag_mono.
  - apply parseCompoundTag_loop_mono. exact Hle.
Qed.

End MoreFuel.

Lemma tagParseFuncsRef_mono (fuel1 fuel2 : nat) :
  (fuel1 <= fuel2)%nat -> le_fuel (tagParseFuncsRef fuel1) (tagParseFuncsRef fuel2).
Proof.
  revert fuel2. induction fuel1 as [|fuel1 IH]; intros fuel2 Hle.
  - intros ty s H. exfalso. apply H. reflexivity.
  - destruct fuel2 as [|fuel2]; [lia|].
    cbn [tagParseFuncsRef]. apply tagParseFuncs_mono; [apply IH|]; lia.
Qed.

(** ** Enough fuel *)

Lemma bind_total {A B : Type} (r : result A) (k : A -> result B) :
  r <> OutOfFuel -> (forall a, r = Ok a -> k a <> OutOfFuel) ->
  bind r k <> OutOfFuel.
Proof. intros Hr Hk. destruct r; cbn [bind]; try discriminate; auto. Qed.

Lemma index_fuel (s : slice) (i : Z) : index s i <> OutOfFuel.
Proof.
  unfold index. destruct ((0 <=? i) && (i <? len s)); [|discriminate].
  destruct (nth_error (vis s) (Z.to_nat i)); discriminate.
Qed.

Lemma reslice_fuel (s : slice) (lo hi : Z) : reslice s lo hi <> OutOfFuel.
Proof.
  unfold reslice.
  destruct ((0 <=? lo) && (lo <=? hi) && (hi <=? cap s)); discriminate.
Qed.

Lemma Uint16_fuel (s : slice) : Uint16 s <> OutOfFuel.
Proof.
  unfold Uint16. repeat (apply bind_total; [apply index_fuel | intros ? _]).
  discriminate.
Qed.

Lemma Uint32_fuel (s : slice) : Uint32 s <> OutOfFuel.
Proof.
  unfold Uint32. repeat (apply bind_total; [apply index_fuel | intros ? _]).
  discriminate.
Qed.

Lemma Uint64_fuel (s : slice) : Uint64 s <> OutOfFuel.
Proof.
  unfold Uint64. repeat (apply bind_total; [apply index_fuel | intros ? _]).
  discriminate.
Qed.

Ltac fuel_step :=
  first [ apply index_fuel | apply reslice_fuel | apply Uint16_fuel
        | apply Uint32_fuel | apply Uint64_fuel | discriminate ].

Section EnoughFuel.

Variable ref : TagType -> decoder.
Variable k : Z.
Hypothesis ref_bounded : bounded ref.
Hypothesis ref_total : forall ty s, fits s -> len s <= k -> ref ty s <> OutOfFuel.

Lemma parseNamedTag_total (data : slice) :
  fits data -> len data <= k + 1 -> parseNamedTag ref data <> OutOfFuel.
Proof.
  unfold fits. intros Hf Hl. unfold parseNamedTag.
  apply bind_total; [fuel_step | intros b Hb].
  apply bind_total.
  { destruct (negb (byteZ b =? TAG_End)); [|discriminate].
    repeat (apply bind_total; [fuel_step | intros ? _]). discriminate. }
  intros [nm payloadStart] Hh.
  apply bind_total; [apply reslice_fuel | intros rest Hr].
  assert (1 <= payloadStart) as Hp.
  { destruct (negb (byteZ b =? TAG_End)); repeat step Hh; slice_facts; lia. }
  slice_facts.
  apply bind_total; [apply ref_total; unfold fits; lia | intros [pl n] _].
  discriminate.
Qed.

Lemma parseCompoundTag_loop_total (fuel : nat) (payload : slice)
      (ret : list NamedTag) (current : Z) :
  fits payload -> len payload <= k + 1 -> 0 <= current ->
  (1 <= fuel)%nat -> len payload - current + 2 <= Z.of_nat fuel ->
  parseCompoundTag_loop ref fuel payload ret current <> OutOfFuel.
Proof.
  unfold fits. intros Hf Hl. revert ret current.
  induction fuel as [|fuel IH]; intros ret current Hc H1 H2; [lia|].
  cbn [parseCompoundTag_loop].
  apply bind_total; [apply reslice_fuel | intros rest Hr].
  slice_facts.
  apply bind_total;
    [apply parseNamedTag_total; unfold fits; lia | intros [tag length] Hn].
  apply parseNamedTag_bounded in Hn; [|exact ref_bounded|unfold fits; lia].
  pose proof (len_le_cap payload).
  rewrite addUint_small by lia.
  destruct (tagType tag =? TAG_End); [discriminate|].
  apply IH; lia.
Qed.

Lemma parseListTag_loop_total (turns : nat) (payload : slice) (ty : TagType)
      (ret : list Tag) (current : Z) :
  fits payload -> len payload <= k + 1 -> 1 <= current <= cap payload ->
  parseListTag_loop ref turns payload ty ret current <> OutOfFuel.
Proof.
  unfold fits. intros Hf Hl. revert ret current.
  induction turns as [|turns IH]; intros ret current Hc; [discriminate|].
  cbn [parseListTag_loop].
  apply bind_total; [apply reslice_fuel | intros rest Hr].
  slice_facts.
  apply bind_total; [apply ref_total; unfold fits; lia | intros [tag length] Hn].
  apply ref_bounded in Hn; [|unfold fits; lia].
  rewrite addUint_small by lia.
  apply IH; lia.
Qed.

Lemma tagParseFuncs_total (fuel : nat) (ty : TagType) (s : slice) :
  fits s -> len s <= k + 1 -> len s + 2 <= Z.of_nat fuel ->
  call (tagParseFuncs ref fuel) ty s <> OutOfFuel.
Proof.
  intros Hf Hl Hfuel. case_ty ty; cbn; try discriminate;
    try (repeat (apply bind_total; [fuel_step | intros ? ?]); discriminate).
  - (* TAG_List *)
    unfold parseListTag.
    apply bind_total; [fuel_step | intros b Hb].
    apply bind_total; [fuel_step | intros fld Hr].
    apply bind_total; [fuel_step | intros count Hu].
    slice_facts.
    apply bind_total;
      [apply parseListTag_loop_total; auto; lia | intros [ret n] _].
    discriminate.
  - (* TAG_Compound *)
    pose proof (len_le_cap s).
    apply parseCompoundTag_loop_total; auto; lia.
Qed.

End EnoughFuel.

Lemma tagParseFuncsRef_total (fuel : nat) (ty : TagType) (s : slice) :
  fits s -> len s + 3 <= Z.of_nat fuel -> tagParseFuncsRef fuel ty s <> OutOfFuel.
Proof.
  revert ty s. induction fuel as [|fuel IH]; intros ty s Hf Hl.
  - pose proof (len_le_cap s). lia.
  - cbn [tagParseFuncsRef].
    apply (tagParseFuncs_total _ (Z.of_nat fuel - 3)).
    + apply tagParseFuncsRef_bounded.
    + intros ty' s' Hf' Hl'. apply IH; [exact Hf' | lia].
    + exact Hf.
    + lia.
    + lia.
Qed.

Lemma parseNamedTag_fuel_total (fuel : nat) (data : slice) :
  fits data -> len data + 2 <= Z.of_nat fuel ->
  parseNamedTag (tagParseFuncsRef fuel) data <> OutOfFuel.
Proof.
  intros Hf Hl.
  apply (parseNamedTag_total _ (Z.of_nat fuel - 3)).
  - intros ty s Hs Hk. apply tagParseFuncsRef_total; [exact Hs | lia].
  - exact Hf.
  - lia.
Qed.

(** ** Locality: a decode reads only what it consumes *)

Lemma backing_reslice (s : slice) (lo hi : Z) (r : slice) :
  reslice s lo hi = Ok r -> backing r = skipn (Z.to_nat lo) (backing s).
Proof.
  intros H. apply reslice_Ok in H. destruct H as (H1 & H2 & ->).
  unfold backing at 1. simpl.
  replace (Z.to_nat hi) with (Z.to_nat (hi - lo) + Z.to_nat lo)%nat by lia.
  rewrite <- skipn_skipn. apply firstn_skipn.
Qed.

Lemma skipn_app_le {A : Type} (n : nat) (l e : list A) :
  (n <= List.length l)%nat -> skipn n (l ++ e) = skipn n l ++ e.
Proof.
  intros H. rewrite skipn_app.
  replace (n - List.length l)%nat with 0%nat by lia. reflexivity.
Qed.

Lemma firstn_app_le {A : Type} (n : nat) (l e : list A) :
  (n <= List.length l)%nat -> firstn n (l ++ e) = firstn n l.
Proof.
  intros H. rewrite firstn_app.
  replace (n - List.length l)%nat with 0%nat by lia.
  simpl. apply app_nil_r.
Qed.

Lemma extends_nth (s s' : slice) (i : nat) (b : byte) :
  extends s s' -> nth_error (vis s) i = Some b -> nth_error (vis s') i = Some b.
Proof.
  intros [[e He] Hl] Hn. unfold len in Hl.
  assert (i < List.length (vis s))%nat as Hi
      by (apply nth_error_Some; congruence).
  assert (nth_error (backing s') i = Some b) as Hb.
  { rewrite He. unfold backing. rewrite <- app_assoc.
    rewrite nth_error_app1 by exact Hi. exact Hn. }
  unfold backing in Hb. rewrite nth_error_app1 in Hb by lia. exact Hb.
Qed.

Lemma bind_decisive {A B : Type} (r : result A) (k : A -> result B) :
  decisive (bind r k) -> decisive r.
Proof. destruct r as [a|[]| |]; simpl; auto. Qed.

Lemma index_cases (s : slice) (i : Z) :
  (exists b, index s i = Ok b) \/ index s i = Panic IndexOutOfRange.
Proof.
  unfold index. destruct ((0 <=? i) && (i <? len s)); [|right; reflexivity].
  destruct (nth_error (vis s) (Z.to_nat i)) as [b|]; [left; eauto | right; reflexivity].
Qed.

Lemma reslice_cases (s : slice) (lo hi : Z) :
  (exists r, reslice s lo hi = Ok r) \/ reslice s lo hi = Panic SliceBoundsOutOfRange.
Proof.
  unfold reslice.
  destruct ((0 <=? lo) && (lo <=? hi) && (hi <=? cap s)); [left; eauto | right; reflexivity].
Qed.

Lemma index_ext (s s' : slice) (i : Z) :
  extends s s' -> decisive (index s i) ->
  exists b, index s i = Ok b /\ index s' i = Ok b.
Proof.
  intros Hext Hd. destruct (index_cases s i) as [[b E]|E].
  - exists b. split; [exact E|].
    apply index_Ok in E. destruct E as [Hi Hn].
    apply index_nth; [lia|]. eapply extends_nth; eauto.
  - rewrite E in Hd. contradiction.
Qed.

Lemma reslice_ext (s s' : slice) (lo hi : Z) :
  extends s s' -> decisive (reslice s lo hi) ->
  exists r r', reslice s lo hi = Ok r /\ reslice s' lo hi = Ok r' /\
               vis r' = vis r /\ extends r r'.
Proof.
  intros [[e He] Hl] Hd. destruct (reslice_cases s lo hi) as [[r E]|E];
    [|rewrite E in Hd; contradiction].
  pose proof (reslice_len_cap _ _ _ _ E) as (H1 & H2 & H3 & H4).
  assert (cap s' = cap s + Z.of_nat (List.length e)) as Hc.
  { unfold cap. rewrite He, length_app. lia. }
  destruct (reslice_cases s' lo hi) as [[r' E']|E'].
  2:{ exfalso. revert E'. unfold reslice.
      replace ((0 <=? lo) && (lo <=? hi) && (hi <=? cap s')) with true;
        [discriminate|].
      symmetry. rewrite !andb_true_iff. lia. }
  exists r, r'. split; [exact E|]. split; [exact E'|].
  pose proof (backing_reslice _ _ _ _ E) as B.
  pose proof (backing_reslice _ _ _ _ E') as B'.
  pose proof (reslice_vis _ _ _ _ E) as [V _].
  pose proof (reslice_vis _ _ _ _ E') as [V' L'].
  unfold cap in H2.
  assert (vis r' = vis r) as Hv.
  { rewrite V', V, He, skipn_app_le by lia.
    apply firstn_app_le. rewrite length_skipn. lia. }
  split; [exact Hv|]. split.
  - exists e. rewrite B', B, He. apply skipn_app_le. lia.
  - unfold len. rewrite Hv. lia.
Qed.

Lemma index_same (s s' : slice) (i : Z) :
  extends s s' -> decisive (index s i) -> index s' i = index s i.
Proof.
  intros Hext Hd. destruct (index_ext _ _ i Hext Hd) as (b & E & E'). congruence.
Qed.

Lemma index_vis (s s' : slice) (i : Z) : vis s' = vis s -> index s' i = index s i.
Proof. intros H. unfold index, len. rewrite H. reflexivity. Qed.

Lemma Uint16_vis (s s' : slice) : vis s' = vis s -> Uint16 s' = Uint16 s.
Proof. intros H. unfold Uint16. rewrite !(index_vis s s') by exact H. reflexivity. Qed.

Lemma Uint32_vis (s s' : slice) : vis s' = vis s -> Uint32 s' = Uint32 s.
Proof. intros H. unfold Uint32. rewrite !(index_vis s s') by exact H. reflexivity. Qed.

Lemma Uint64_vis (s s' : slice) : vis s' = vis s -> Uint64 s' = Uint64 s.
Proof. intros H. unfold Uint64. rewrite !(index_vis s s') by exact H. reflexivity. Qed.

Lemma bind_ext {A B : Type} (r r' : result A) (k k' : A -> result B) :
  (decisive r -> r' = r) ->
  (forall a, r = Ok a -> decisive (k a) -> k' a = k a) ->
  decisive (bind r k) -> bind r' k' = bind r k.
Proof.
  intros Hr Hk Hd. rewrite (Hr (bind_decisive _ _ Hd)).
  destruct r; cbn [bind] in *; auto.
Qed.

Lemma bind_ext_reslice {B : Type} (s s' : slice) (lo hi : Z)
      (k k' : slice -> result B) :
  extends s s' ->
  (forall r r', reslice s lo hi = Ok r -> vis r' = vis r -> extends r r' ->
                decisive (k r) -> k' r' = k r) ->
  decisive (bind (reslice s lo hi) k) ->
  bind (reslice s' lo hi) k' = bind (reslice s lo hi) k.
Proof.
  intros Hext Hk Hd.
  destruct (reslice_ext _ _ lo hi Hext (bind_decisive _ _ Hd))
    as (r & r' & E & E' & Hv & Hx).
  rewrite E in Hd |- *. rewrite E'. cbn [bind] in *. apply Hk; auto.
Qed.

Lemma slice_from_ext (s s' : slice) (lo : Z) :
  extends s s' -> decisive (slice_from s lo) ->
  exists r r', slice_from s lo = Ok r /\ slice_from s' lo = Ok r' /\ extends r r'.
Proof.
  unfold slice_from. intros Hext Hd.
  destruct (reslice_cases s lo (len s)) as [[r E]|E];
    [|rewrite E in Hd; contradiction].
  destruct Hext as [[e He] Hl].
  pose proof (reslice_len_cap _ _ _ _ E) as (H1 & H2 & H3 & H4).
  pose proof (len_le_cap s'). pose proof (len_le_cap s).
  destruct (reslice_cases s' lo (len s')) as [[r' E']|E'].
  2:{ exfalso. revert E'. unfold reslice.
      replace ((0 <=? lo) && (lo <=? len s') && (len s' <=? cap s')) with true;
        [discriminate|].
      symmetry. rewrite !andb_true_iff. lia. }
  exists r, r'. split; [exact E|]. split; [exact E'|].
  pose proof (reslice_len_cap _ _ _ _ E') as (_ & _ & H3' & _).
  split; [|lia].
  exists e. rewrite (backing_reslice _ _ _ _ E'), (backing_reslice _ _ _ _ E), He.
  apply skipn_app_le. unfold cap in *. lia.
Qed.

Lemma bind_ext_slice_from {B : Type} (s s' : slice) (lo : Z)
      (k k' : slice -> result B) :
  extends s s' ->
  (forall r r', slice_from s lo = Ok r -> extends r r' ->
                decisive (k r) -> k' r' = k r) ->
  decisive (bind (slice_from s lo) k) ->
  bind (slice_from s' lo) k' = bind (slice_from s lo) k.
Proof.
  intros Hext Hk Hd.
  destruct (slice_from_ext _ _ lo Hext (bind_decisive _ _ Hd))
    as (r & r' & E & E' & Hx).
  rewrite E in Hd |- *. rewrite E'. cbn [bind] in *. apply Hk; auto.
Qed.

Section Locality.

Variable ref : TagType -> decoder.
Hypothesis ref_local : local ref.

Lemma parseNamedTag_local (data data' : slice) :
  extends data data' -> decisive (parseNamedTag ref data) ->
  parseNamedTag ref data' = parseNamedTag ref data.
Proof.
  intros Hext. unfold parseNamedTag.
  apply bind_ext; [apply index_same; exact Hext | intros b _].
  apply bind_ext.
  { destruct (negb (byteZ b =? TAG_End)); [|reflexivity].
    apply bind_ext_reslice; [exact Hext | intros l l' _ Hv _].
    rewrite (Uint16_vis l l' Hv).
    apply bind_ext; [reflexivity | intros nameLength _].
    apply bind_ext_reslice; [exact Hext | intros n n' _ Hn _ _].
    unfold string_of_slice. rewrite Hn. reflexivity. }
  intros [nm payloadStart] _.
  apply bind_ext_slice_from; [exact Hext | intros rest rest' _ Hx].
  apply bind_ext; [apply ref_local; exact Hx | reflexivity].
Qed.

Lemma parseCompoundTag_loop_local (fuel : nat) (payload payload' : slice)
      (ret : list NamedTag) (current : Z) :
  extends payload payload' ->
  decisive (parseCompoundTag_loop ref fuel payload ret current) ->
  parseCompoundTag_loop ref fuel payload' ret current
  = parseCompoundTag_loop ref fuel payload ret current.
Proof.
  intros Hext. revert ret current.
  induction fuel as [|fuel IH]; intros ret current; [reflexivity|].
  cbn [parseCompoundTag_loop].
  apply bind_ext_slice_from; [exact Hext | intros rest rest' _ Hx].
  apply bind_ext; [apply parseNamedTag_local; exact Hx | intros [tag length] _].
  destruct (tagType tag =? TAG_End); [reflexivity|]. apply IH.
Qed.

Lemma parseListTag_loop_local (turns : nat) (payload payload' : slice)
      (ty : TagType) (ret : list Tag) (current : Z) :
  extends payload payload' ->
  decisive (parseListTag_loop ref turns payload ty ret current) ->
  parseListTag_loop ref turns payload' ty ret current
  = parseListTag_loop ref turns payload ty ret current.
Proof.
  intros Hext. revert ret current.
  induction turns as [|turns IH]; intros ret current; [reflexivity|].
  cbn [parseListTag_loop].
  apply bind_ext_slice_from; [exact Hext | intros rest rest' _ Hx].
  apply bind_ext; [apply ref_local; exact Hx | intros [tag length] _].
  apply IH.
Qed.

Lemma tagParseFuncs_local (fuel : nat) : local (call (tagParseFuncs ref fuel)).
Proof.
  intros ty s s' Hext. case_ty ty; cbn; try reflexivity.
  - (* TAG_Byte *)
    apply bind_ext; [apply index_same; exact Hext | reflexivity].
  - (* TAG_Short *)
    apply bind_ext_reslice; [exact Hext | intros f f' _ Hv _ _].
    rewrite (Uint16_vis f f' Hv). reflexivity.
  - (* TAG_Int *)
    apply bind_ext_reslice; [exact Hext | intros f f' _ Hv _ _].
    rewrite (Uint32_vis f f' Hv). reflexivity.
  - (* TAG_Long *)
    apply bind_ext_reslice; [exact Hext | intros f f' _ Hv _ _].
    rewrite (Uint64_vis f f' Hv). reflexivity.
  - (* TAG_Float *)
    apply bind_ext_reslice; [exact Hext | intros f f' _ Hv _ _].
    rewrite (Uint32_vis f f' Hv). reflexivity.
  - (* TAG_Double *)
    apply bind_ext_reslice; [exact Hext | intros f f' _ Hv _ _].
    rewrite (Uint64_vis f f' Hv). reflexivity.
  - (* TAG_Byte_Array *)
    apply bind_ext_reslice; [exact Hext | intros f f' _ Hv _].
    rewrite (Uint32_vis f f' Hv).
    apply bind_ext; [reflexivity | intros count _].
    apply bind_ext_reslice; [exact Hext | intros a a' _ Ha _ _].
    rewrite Ha. reflexivity.
  - (* TAG_String *)
    apply bind_ext_reslice; [exact Hext | intros f f' _ Hv _].
    rewrite (Uint16_vis f f' Hv).
    apply bind_ext; [reflexivity | intros count _].
    apply bind_ext_reslice; [exact Hext | intros a a' _ Ha _ _].
    unfold string_of_slice. rewrite Ha. reflexivity.
  - (* TAG_List *)
    unfold parseListTag.
    apply bind_ext; [apply index_same; exact Hext | intros b _].
    apply bind_ext_reslice; [exact Hext | intros f f' _ Hv _].
    rewrite (Uint32_vis f f' Hv).
    apply bind_ext; [reflexivity | intros count _].
    apply bind_ext; [apply parseListTag_loop_local; exact Hext | reflexivity].
  - (* TAG_Compound *)
    apply parseCompoundTag_loop_local. exact Hext.
Qed.

End Locality.

Lemma tagParseFuncsRef_local (fuel : nat) : local (tagParseFuncsRef fuel).
Proof.
  induction fuel as [|fuel IH].
  - intros ty s s' _ H. contradiction.
  - cbn [tagParseFuncsRef]. apply tagParseFuncs_local. exact IH.
Qed.

(** ** Reading a field of the backing array *)

Lemma reslice_bytesAt (s : slice) (lo hi : Z) (r : slice) :
  reslice s lo hi = Ok r -> vis r = bytesAt s lo (hi - lo).
Proof. intros H. apply reslice_vis in H. apply H. Qed.

Lemma reslice_in_cap (s : slice) (lo hi : Z) :
  0 <= lo <= hi -> hi <= cap s -> exists r, reslice s lo hi = Ok r.
Proof.
  intros H1 H2. eexists. apply reslice_Ok. repeat split; try lia.
Qed.

Lemma bytesAt_length (s : slice) (lo n : Z) :
  0 <= lo -> 0 <= n -> lo + n <= cap s ->
  Z.of_nat (List.length (bytesAt s lo n)) = n.
Proof.
  intros H1 H2 H3. unfold bytesAt, cap in *.
  rewrite length_firstn, length_skipn. lia.
Qed.

(* [f <- payload[lo:lo+w] ;; v <- UintW f ;; k v], once the field fits *)
Lemma read16 {B : Type} (s : slice) (lo : Z) (k : Z -> result B) :
  0 <= lo -> lo + 2 <= cap s ->
  (f <- reslice s lo (lo + 2) ;; v <- Uint16 f ;; k v)
  = k (bigEndian (bytesAt s lo 2)).
Proof.
  intros H1 H2. destruct (reslice_in_cap s lo (lo + 2)) as [r E]; try lia.
  rewrite E. cbn [bind]. pose proof (reslice_vis _ _ _ _ E) as [V L].
  destruct (Uint16_exact r) as [U _]; [lia|]. rewrite U. cbn [bind].
  rewrite (reslice_bytesAt _ _ _ _ E). replace (lo + 2 - lo) with 2 by lia.
  reflexivity.
Qed.

Lemma read32 {B : Type} (s : slice) (lo : Z) (k : Z -> result B) :
  0 <= lo -> lo + 4 <= cap s ->
  (f <- reslice s lo (lo + 4) ;; v <- Uint32 f ;; k v)
  = k (bigEndian (bytesAt s lo 4)).
Proof.
  intros H1 H2. destruct (reslice_in_cap s lo (lo + 4)) as [r E]; try lia.
  rewrite E. cbn [bind]. pose proof (reslice_vis _ _ _ _ E) as [V L].
  destruct (Uint32_exact r) as [U _]; [lia|]. rewrite U. cbn [bind].
  rewrite (reslice_bytesAt _ _ _ _ E). replace (lo + 4 - lo) with 4 by lia.
  reflexivity.
Qed.

Lemma read64 {B : Type} (s : slice) (lo : Z) (k : Z -> result B) :
  0 <= lo -> lo + 8 <= cap s ->
  (f <- reslice s lo (lo + 8) ;; v <- Uint64 f ;; k v)
  = k (bigEndian (bytesAt s lo 8)).
Proof.
  intros H1 H2. destruct (reslice_in_cap s lo (lo + 8)) as [r E]; try lia.
  rewrite E. cbn [bind]. pose proof (reslice_vis _ _ _ _ E) as [V L].
  destruct (Uint64_exact r) as [U _]; [lia|]. rewrite U. cbn [bind].
  rewrite (reslice_bytesAt _ _ _ _ E). replace (lo + 8 - lo) with 8 by lia.
  reflexivity.
Qed.

Lemma read_short {B : Type} (s : slice) (lo hi : Z) (k : slice -> result B) :
  cap s < hi -> bind (reslice s lo hi) k = Panic SliceBoundsOutOfRange.
Proof. intros H. rewrite reslice_Panic by lia. reflexivity. Qed.

Lemma bytesAt_range (s : slice) (lo n : Z) :
  0 <= lo -> 0 <= n -> lo + n <= cap s ->
  0 <= bigEndian (bytesAt s lo n) < 256 ^ n.
Proof.
  intros H1 H2 H3. pose proof (bigEndian_range (bytesAt s lo n)) as R.
  rewrite bytesAt_length in R by lia. exact R.
Qed.

(** ** Scalar payloads *)

Lemma index0_hd (s : slice) (b : byte) :
  index s 0 = Ok b -> hd x00 (backing s) = b.
Proof.
  intros H. apply index_Ok in H. destruct H as [_ H].
  unfold backing. destruct (vis s); simpl in *; congruence.
Qed.

Ltac field_or_short H w :=
  match type of H with
  | bind (reslice ?s ?lo _) _ = _ =>
      destruct (Z_le_dec (lo + w) (cap s));
      [ first [ rewrite (read16 s lo) in H by lia
              | rewrite (read32 s lo) in H by lia
              | rewrite (read64 s lo) in H by lia ]
      | rewrite read_short in H by lia; discriminate H ]
  end.

Lemma scalar_decoded (fuel : nat) (ty : TagType) (payload : slice) (v : Tag) (n : Z) :
  0 <= ty <= 8 ->
  tagParseFuncsRef (S fuel) ty payload = Ok (v, n) ->
  n = scalarWidth ty (backing payload) /\ v = scalarValue ty (backing payload).
Proof.
  intros Hty. cbn [tagParseFuncsRef].
  assert (ty = 0 \/ ty = 1 \/ ty = 2 \/ ty = 3 \/ ty = 4 \/ ty = 5 \/
          ty = 6 \/ ty = 7 \/ ty = 8) as H' by lia.
  destruct H' as [->|[->|[->|[->|[->|[->|[->|[->| ->]]]]]]]];
    table_simpl; cbn [scalarWidth scalarValue]; intros H.
  - step H. auto.
  - repeat step H. split; [reflexivity|]. f_equal. symmetry.
    apply index0_hd. assumption.
  - field_or_short H 2. step H. auto.
  - field_or_short H 4. step H. auto.
  - field_or_short H 8. step H. auto.
  - field_or_short H 4. step H. auto.
  - field_or_short H 8. step H. auto.
  - field_or_short H 4. repeat step H. slice_facts.
    pose proof (bytesAt_range payload 0 4 ltac:(lia) ltac:(lia) ltac:(lia)) as R.
    match goal with
    | E : reslice _ 4 _ = Ok _ |- _ => rewrite (reslice_bytesAt _ _ _ _ E)
    end.
    rewrite add32_no_wrap by lia.
    change (bytesAt payload 0 4) with (firstn 4 (backing payload)).
    split; [reflexivity|].
    match goal with
    | |- context [bytesAt _ _ (4 + ?N - 4)] => replace (4 + N - 4) with N by lia
    end.
    reflexivity.
  - field_or_short H 2. repeat step H. slice_facts.
    pose proof (bytesAt_range payload 0 2 ltac:(lia) ltac:(lia) ltac:(lia)) as R.
    unfold string_of_slice.
    match goal with
    | E : reslice _ 2 _ = Ok _ |- _ => rewrite (reslice_bytesAt _ _ _ _ E)
    end.
    rewrite add16_no_wrap by lia.
    change (bytesAt payload 0 2) with (firstn 2 (backing payload)).
    split; [reflexivity|].
    match goal with
    | |- context [bytesAt _ _ (2 + ?N - 2)] => replace (2 + N - 2) with N by lia
    end.
    reflexivity.
Qed.

Lemma scalar_decodes (fuel : nat) (ty : TagType) (payload : slice) :
  0 <= ty <= 8 -> scalarReadable ty payload ->
  tagParseFuncsRef (S fuel) ty payload
  = Ok (scalarValue ty (backing payload), scalarWidth ty (backing payload)).
Proof.
  intros Hty (Hw & Hb & Ha & Hs). cbn [tagParseFuncsRef].
  assert (ty = 0 \/ ty = 1 \/ ty = 2 \/ ty = 3 \/ ty = 4 \/ ty = 5 \/
          ty = 6 \/ ty = 7 \/ ty = 8) as H' by lia.
  destruct H' as [->|[->|[->|[->|[->|[->|[->|[->| ->]]]]]]]];
    cbn [scalarWidth scalarValue] in *; table_simpl.
  - reflexivity.
  - destruct (index_in_range payload 0) as [b E];
      [specialize (Hb eq_refl); lia|].
    rewrite E. cbn [bind]. rewrite (index0_hd _ _ E). reflexivity.
  - rewrite (read16 payload 0) by lia. reflexivity.
  - rewrite (read32 payload 0) by lia. reflexivity.
  - rewrite (read64 payload 0) by lia. reflexivity.
  - rewrite (read32 payload 0) by lia. reflexivity.
  - rewrite (read64 payload 0) by lia. reflexivity.
  - specialize (Ha eq_refl).
    pose proof (bigEndian_range (firstn 4 (backing payload))) as R.
    rewrite (read32 payload 0) by lia.
    change (bytesAt payload 0 4) with (firstn 4 (backing payload)).
    assert (add32 4 (bigEndian (firstn 4 (backing payload)))
            = 4 + bigEndian (firstn 4 (backing payload))) as ->
        by (apply Z.mod_small; lia).
    destruct (reslice_in_cap payload 4 (4 + bigEndian (firstn 4 (backing payload))))
      as [a E]; try lia.
    rewrite E. cbn [bind]. rewrite (reslice_bytesAt _ _ _ _ E).
    match goal with
    | |- context [bytesAt _ _ (4 + ?N - 4)] => replace (4 + N - 4) with N by lia
    end.
    reflexivity.
  - specialize (Hs eq_refl).
    pose proof (bigEndian_range (firstn 2 (backing payload))) as R.
    rewrite (read16 payload 0) by lia.
    change (bytesAt payload 0 2) with (firstn 2 (backing payload)).
    assert (add16 2 (bigEndian (firstn 2 (backing payload)))
            = 2 + bigEndian (firstn 2 (backing payload))) as ->
        by (apply Z.mod_small; lia).
    destruct (reslice_in_cap payload 2 (2 + bigEndian (firstn 2 (backing payload))))
      as [a E]; try lia.
    rewrite E. cbn [bind]. unfold string_of_slice.
    rewrite (reslice_bytesAt _ _ _ _ E).
    match goal with
    | |- context [bytesAt _ _ (2 + ?N - 2)] => replace (2 + N - 2) with N by lia
    end.
    reflexivity.
Qed.

(** ** The named-tag decoder, step by step *)

Lemma slice_from_in_len (s : slice) (lo : Z) :
  0 <= lo <= len s -> exists r, slice_from s lo = Ok r.
Proof.
  intros H. pose proof (len_le_cap s). apply reslice_in_cap; lia.
Qed.

Lemma nameLengthOf_range (data : slice) :
  3 <= cap data -> 0 <= nameLengthOf data < 2 ^ 16.
Proof.
  intros H. unfold nameLengthOf.
  pose proof (bytesAt_range data 1 2 ltac:(lia) ltac:(lia) ltac:(lia)). lia.
Qed.

Section NamedTagSteps.

Variable ref : TagType -> decoder.

Lemma parseNamedTag_header (data : slice) (b : byte) :
  index data 0 = Ok b -> byteZ b <> TAG_End -> 3 <= cap data ->
  parseNamedTag ref data
  = (n <- reslice data 3 (add16 3 (nameLengthOf data)) ;;
     rest <- slice_from data (add16 3 (nameLengthOf data)) ;;
     '(pl, payloadLength) <- ref (byteZ b) rest ;;
     Ok (mkNamedTag (byteZ b) (string_of_slice n) pl,
         addUint (add16 3 (nameLengthOf data)) payloadLength)).
Proof.
  intros E Hb Hc. unfold parseNamedTag. rewrite E. cbn [bind].
  apply Z.eqb_neq in Hb. rewrite Hb. cbn [negb].
  destruct (reslice_in_cap data 1 3) as [l El]; try lia.
  rewrite El. cbn [bind].
  pose proof (reslice_vis _ _ _ _ El) as [V L].
  destruct (Uint16_exact l) as [U _]; [lia|]. rewrite U. cbn [bind].
  rewrite (reslice_bytesAt _ _ _ _ El).
  change (bigEndian (bytesAt data 1 (3 - 1))) with (nameLengthOf data).
  destruct (reslice data 3 (add16 3 (nameLengthOf data))); reflexivity.
Qed.

Lemma parseNamedTag_no_header (data : slice) (b : byte) :
  index data 0 = Ok b -> byteZ b <> TAG_End -> cap data < 3 ->
  parseNamedTag ref data = Panic SliceBoundsOutOfRange.
Proof.
  intros E Hb Hc. unfold parseNamedTag. rewrite E. cbn [bind].
  apply Z.eqb_neq in Hb. rewrite Hb. cbn [negb].
  rewrite reslice_Panic by lia. reflexivity.
Qed.

(* a name length of 65533 or more: the end of the name wraps below 3 *)
Lemma parseNamedTag_wrapped (data : slice) (b : byte) :
  index data 0 = Ok b -> byteZ b <> TAG_End -> 3 <= cap data ->
  65533 <= nameLengthOf data ->
  add16 3 (nameLengthOf data) = nameLengthOf data - 65533 /\
  parseNamedTag ref data = Panic SliceBoundsOutOfRange.
Proof.
  intros E Hb Hc HL. pose proof (nameLengthOf_range data Hc) as R.
  assert (add16 3 (nameLengthOf data) = nameLengthOf data - 65533) as Hw.
  { unfold add16, wrap16.
    replace (3 + nameLengthOf data)
      with (nameLengthOf data - 65533 + 1 * 2 ^ 16) by lia.
    rewrite Z.mod_add by lia. apply Z.mod_small. lia. }
  split; [exact Hw|].
  rewrite (parseNamedTag_header data b E Hb Hc), Hw.
  rewrite reslice_Panic by lia. reflexivity.
Qed.

Lemma parseNamedTag_named (data : slice) (b : byte) :
  index data 0 = Ok b -> byteZ b <> TAG_End ->
  nameLengthOf data <= 65532 -> 3 + nameLengthOf data <= len data ->
  exists rest,
    slice_from data (3 + nameLengthOf data) = Ok rest /\
    parseNamedTag ref data
    = ('(pl, payloadLength) <- ref (byteZ b) rest ;;
       Ok (mkNamedTag (byteZ b)
             (string_of_list_byte (bytesAt data 3 (nameLengthOf data))) pl,
           addUint (3 + nameLengthOf data) payloadLength)).
Proof.
  intros E Hb HL Hlen. pose proof (len_le_cap data) as Hc.
  pose proof (bigEndian_range (bytesAt data 1 2)) as R0.
  fold (nameLengthOf data) in R0.
  assert (3 <= cap data) as Hc3 by lia.
  pose proof (nameLengthOf_range data Hc3) as R.
  rewrite (parseNamedTag_header data b E Hb Hc3).
  assert (add16 3 (nameLengthOf data) = 3 + nameLengthOf data) as ->
      by (apply Z.mod_small; lia).
  destruct (reslice_in_cap data 3 (3 + nameLengthOf data)) as [n En]; try lia.
  destruct (slice_from_in_len data (3 + nameLengthOf data)) as [rest Er]; try lia.
  exists rest. split; [exact Er|].
  rewrite En, Er. cbn [bind]. unfold string_of_slice.
  rewrite (reslice_bytesAt _ _ _ _ En).
  replace (3 + nameLengthOf data - 3) with (nameLengthOf data) by lia.
  reflexivity.
Qed.

Lemma parseNamedTag_decoded (data : slice) (b : byte) (t : NamedTag) (n : Z) :
  index data 0 = Ok b -> byteZ b <> TAG_End ->
  parseNamedTag ref data = Ok (t, n) ->
  nameLengthOf data <= 65532 /\ 3 + nameLengthOf data <= len data /\
  exists rest pl payloadLength,
    slice_from data (3 + nameLengthOf data) = Ok rest /\
    ref (byteZ b) rest = Ok (pl, payloadLength) /\
    t = mkNamedTag (byteZ b)
          (string_of_list_byte (bytesAt data 3 (nameLengthOf data))) pl /\
    n = addUint (3 + nameLengthOf data) payloadLength.
Proof.
  intros E Hb H.
  destruct (Z_lt_dec (cap data) 3) as [Hc|Hc].
  { rewrite (parseNamedTag_no_header data b E Hb Hc) in H. discriminate. }
  destruct (Z_le_dec 65533 (nameLengthOf data)) as [HL|HL].
  { destruct (parseNamedTag_wrapped data b E Hb ltac:(lia) HL) as [_ W].
    rewrite W in H. discriminate. }
  pose proof (nameLengthOf_range data ltac:(lia)) as R.
  assert (3 + nameLengthOf data <= len data) as Hlen.
  { rewrite (parseNamedTag_header data b E Hb ltac:(lia)) in H.
    assert (add16 3 (nameLengthOf data) = 3 + nameLengthOf data) as Hw
        by (apply Z.mod_small; lia).
    rewrite Hw in H. do 2 step H. slice_facts. lia. }
  split; [lia|]. split; [exact Hlen|].
  destruct (parseNamedTag_named data b E Hb ltac:(lia) Hlen) as (rest & Er & Eq).
  rewrite Eq in H. repeat step H.
  exists rest. eauto 10.
Qed.

End NamedTagSteps.

Lemma parseNamedTag_End (fuel : nat) (data : slice) (b : byte) :
  index data 0 = Ok b -> byteZ b = TAG_End ->
  parseNamedTag (tagParseFuncsRef (S fuel)) data
  = Ok (mkNamedTag TAG_End EmptyString TNil, 1).
Proof.
  intros E Hb. unfold parseNamedTag. rewrite E. cbn [bind].
  rewrite Hb. cbn [Z.eqb TAG_End negb bind].
  pose proof (proj1 (proj1 (index_Ok _ _ _) E)) as Hi.
  destruct (slice_from_in_len data 1) as [rest Er]; [lia|].
  rewrite Er. reflexivity.
Qed.

(** ** The aggregate decoders, turn by turn *)

Lemma tagType_decoded (ref : TagType -> decoder) (data : slice)
      (t : NamedTag) (n : Z) :
  parseNamedTag ref data = Ok (t, n) ->
  exists b, index data 0 = Ok b /\ tagType t = byteZ b.
Proof.
  unfold parseNamedTag. intros H. repeat step H. eexists. split; eauto.
Qed.

Section AggregateSteps.

Variable ref : TagType -> decoder.
Hypothesis ref_bounded : bounded ref.

Lemma parseCompoundTag_loop_decoded (fuel : nat) (payload : slice)
      (ret : list NamedTag) (current : Z) (v : Tag) (total : Z) :
  fits payload -> 0 <= current ->
  parseCompoundTag_loop ref fuel payload ret current = Ok (v, total) ->
  exists children lens rest e elen,
    v = TCompound (ret ++ children) /\
    childrenAt ref payload current children lens /\
    slice_from payload (current + sumZ lens) = Ok rest /\
    parseNamedTag ref rest = Ok (e, elen) /\ tagType e = TAG_End /\
    total = current + sumZ lens + elen.
Proof.
  intros Hf. revert ret current.
  induction fuel as [|fuel IH]; intros ret current Hc H; [discriminate|].
  cbn [parseCompoundTag_loop] in H.
  apply bind_Ok in H. destruct H as (rest & Er & H).
  apply bind_Ok in H. destruct H as ([tag length] & En & H).
  pose proof (slice_from_len_cap _ _ _ Er) as (? & ? & ?).
  pose proof (len_le_cap payload). unfold fits in Hf.
  pose proof (parseNamedTag_bounded ref ref_bounded rest tag length
                ltac:(unfold fits; lia) En).
  rewrite addUint_small in H by lia.
  destruct (tagType tag =? TAG_End) eqn:Et.
  - inversion H; subst; clear H. apply Z.eqb_eq in Et.
    exists [], [], rest, tag, length. cbn [childrenAt sumZ].
    rewrite app_nil_r, Z.add_0_r. auto 10.
  - apply Z.eqb_neq in Et.
    apply IH in H; [|lia].
    destruct H as (cs & ns & rest' & e & elen & Hv & Hcs & Hr & He & Hte & Ht).
    exists (tag :: cs), (length :: ns), rest', e, elen.
    cbn [childrenAt sumZ]. rewrite <- app_assoc in Hv.
    split; [exact Hv|]. split; [eauto 10|].
    rewrite Z.add_assoc. auto.
Qed.

Lemma parseListTag_loop_decoded (turns : nat) (payload : slice) (ty : TagType)
      (ret : list Tag) (current : Z) (ret' : list Tag) (total : Z) :
  fits payload -> 0 <= current <= cap payload ->
  parseListTag_loop ref turns payload ty ret current = Ok (ret', total) ->
  exists elems lens,
    ret' = ret ++ elems /\ List.length elems = turns /\
    elementsAt ref payload ty current elems lens /\
    total = current + sumZ lens.
Proof.
  intros Hf. revert ret current.
  induction turns as [|turns IH]; intros ret current Hc H;
    cbn [parseListTag_loop] in H.
  - inversion H; subst. exists [], []. cbn [elementsAt sumZ].
    rewrite app_nil_r, Z.add_0_r. auto.
  - apply bind_Ok in H. destruct H as (rest & Er & H).
    apply bind_Ok in H. destruct H as ([tag length] & En & H).
    pose proof (slice_from_len_cap _ _ _ Er) as (? & ? & ?).
    unfold fits in Hf.
    pose proof (ref_bounded ty rest tag length ltac:(unfold fits; lia) En).
    rewrite addUint_small in H by lia.
    apply IH in H; [|lia].
    destruct H as (es & ns & Hr & Hlen & Hes & Ht).
    exists (tag :: es), (length :: ns). cbn [elementsAt sumZ List.length].
    rewrite <- app_assoc in Hr.
    split; [exact Hr|]. split; [lia|]. split; [eauto 10|]. lia.
Qed.

End AggregateSteps.

(** ** Decoded values have the shape of their tag type *)

Section Shapes.

Variable ref : TagType -> decoder.
Hypothesis ref_shaped : shaped ref.

Lemma parseNamedTag_shaped (data : slice) (t : NamedTag) (n : Z) :
  parseNamedTag ref data = Ok (t, n) -> shapeNamed t = true.
Proof.
  unfold parseNamedTag. intros H. repeat step H.
  cbn [shapeNamed]. eapply ref_shaped. eassumption.
Qed.

Lemma parseCompoundTag_loop_shaped (fuel : nat) (payload : slice)
      (ret : list NamedTag) (current : Z) (v : Tag) (n : Z) :
  forallb shapeNamed ret = true ->
  parseCompoundTag_loop ref fuel payload ret current = Ok (v, n) ->
  shape TAG_Compound v = true.
Proof.
  revert ret current.
  induction fuel as [|fuel IH]; intros ret current Hret H; [discriminate|].
  cbn [parseCompoundTag_loop] in H.
  apply bind_Ok in H. destruct H as (rest & Er & H).
  apply bind_Ok in H. destruct H as ([tag length] & En & H).
  destruct (tagType tag =? TAG_End).
  - inversion H; subst. cbn [shape]. rewrite Hret. reflexivity.
  - eapply IH; [|exact H].
    rewrite forallb_app, Hret. cbn [forallb].
    rewrite (parseNamedTag_shaped _ _ _ En). reflexivity.
Qed.

Lemma parseListTag_loop_shaped (turns : nat) (payload : slice) (ty : TagType)
      (ret : list Tag) (current : Z) (ret' : list Tag) (n : Z) :
  forallb (shape ty) ret = true ->
  parseListTag_loop ref turns payload ty ret current = Ok (ret', n) ->
  forallb (shape ty) ret' = true.
Proof.
  revert ret current.
  induction turns as [|turns IH]; intros ret current Hret H;
    cbn [parseListTag_loop] in H.
  - inversion H; subst. exact Hret.
  - apply bind_Ok in H. destruct H as (rest & Er & H).
    apply bind_Ok in H. destruct H as ([tag length] & En & H).
    eapply IH; [|exact H].
    rewrite forallb_app, Hret. cbn [forallb].
    rewrite (ref_shaped _ _ _ _ En). reflexivity.
Qed.

Lemma tagParseFuncs_shaped (fuel : nat) : shaped (call (tagParseFuncs ref fuel)).
Proof.
  intros ty s v n. case_ty ty; table_simpl; intros H; try discriminate;
    try (repeat step H; reflexivity).
  - (* TAG_List *)
    unfold parseListTag in H. repeat step H. cbn [shape].
    match goal with
    | E : parseListTag_loop _ _ _ _ _ _ = Ok _ |- _ =>
        apply parseListTag_loop_shaped in E; [rewrite E|]; reflexivity
    end.
  - (* TAG_Compound *)
    eapply parseCompoundTag_loop_shaped; [|exact H]. reflexivity.
Qed.

End Shapes.

Lemma tagParseFuncsRef_shaped (fuel : nat) : shaped (tagParseFuncsRef fuel).
Proof.
  induction fuel as [|fuel IH].
  - intros ty s v n H. discriminate.
  - cbn [tagParseFuncsRef]. apply tagParseFuncs_shaped. exact IH.
Qed.

(** ** Strings *)

Lemma append_assoc (a b c : string) : ((a ++ b) ++ c = a ++ (b ++ c))%string.
Proof. induction a as [|ch a IH]; simpl; [reflexivity | rewrite IH; reflexivity]. Qed.

Lemma append_nil_r (a : string) : (a ++ EmptyString = a)%string.
Proof. induction a as [|ch a IH]; simpl; [reflexivity | rewrite IH; reflexivity]. Qed.

Lemma length_append (a b : string) :
  String.length (a ++ b) = (String.length a + String.length b)%nat.
Proof. induction a as [|ch a IH]; simpl; [reflexivity | rewrite IH; reflexivity]. Qed.

Lemma indent_S (depth : nat) (prefix : string) :
  ("  " ++ indent depth prefix)%string = indent (S depth) prefix.
Proof. reflexivity. Qed.

Lemma length_indent (depth : nat) (prefix : string) :
  String.length (indent depth prefix) = (2 * depth + String.length prefix)%nat.
Proof.
  induction depth as [|depth IH]; [reflexivity|].
  rewrite <- indent_S, length_append, IH. cbn [String.length]. lia.
Qed.

(** ** The renderer *)

Lemma forRange_appends {A : Type} (body : string -> A -> result string)
      (text : A -> string) (els : list A) :
  Forall (fun e => forall buffer, body buffer e = Ok (buffer ++ text e)%string) els ->
  forall buffer,
    forRange body els buffer = Ok (buffer ++ catAll (map text els))%string.
Proof.
  induction 1 as [|e els He Hels IH]; intros buffer; cbn [forRange map catAll].
  - rewrite append_nil_r. reflexivity.
  - rewrite He. cbn [bind]. fold (forRange body). rewrite IH, append_assoc.
    reflexivity.
Qed.

Ltac scalar_case :=
  match goal with
  | S : shape _ _ = true |- _ =>
      cbn [shape] in S; apply Z.eqb_eq in S; subst
  end;
  cbn -[indent typeName fmt_d fmt_v nl dq append];
  unfold renderUnnamed; cbn -[indent typeName fmt_d fmt_v nl dq append];
  rewrite ?append_assoc; reflexivity.

Section RenderCorrect.

Variables fmtFloat32 fmtFloat64 : Z -> string.
Variable fmtOther : Tag -> string.
Variable prefix : string.

Let printUnnamedTag' := printUnnamedTag fmtFloat32 fmtFloat64 fmtOther.
Let Print' := Print fmtFloat32 fmtFloat64 fmtOther.
Let renderUnnamed' := renderUnnamed fmtFloat32 fmtFloat64 fmtOther prefix.
Let renderNamed' := renderNamed fmtFloat32 fmtFloat64 fmtOther prefix.

Lemma printUnnamedTag_Compound (buffer p : string) (l : list NamedTag) :
  printUnnamedTag' buffer p (TCompound l) TAG_Compound
  = (buffer <- forRange (fun buffer element => Print' buffer ("  " ++ p) element)
                        l ((buffer ++ (p ++ typeName TAG_Compound))
                           ++ (": " ++ fmt_d (Z.of_nat (List.length l))
                               ++ " entries" ++ nl ++ p ++ "{" ++ nl)) ;;
     Ok (buffer ++ (p ++ "}" ++ nl)))%string.
Proof. reflexivity. Qed.

Lemma printUnnamedTag_List (buffer p : string) (ty : TagType) (l : list Tag) :
  printUnnamedTag' buffer p (TListTag ty l) TAG_List
  = (buffer <- forRange (fun buffer element =>
                           printUnnamedTag' buffer ("  " ++ p) element ty)
                        l ((buffer ++ (p ++ typeName TAG_List))
                           ++ (": " ++ fmt_d (Z.of_nat (List.length l))
                               ++ " entries of type " ++ typeName ty
                               ++ nl ++ p ++ "{" ++ nl)) ;;
     Ok (buffer ++ (p ++ "}" ++ nl)))%string.
Proof. reflexivity. Qed.

Lemma Print_Compound (buffer p nm : string) (l : list NamedTag) :
  Print' buffer p (mkNamedTag TAG_Compound nm (TCompound l))
  = (buffer <- forRange (fun buffer element => Print' buffer ("  " ++ p) element)
                        l ((buffer ++ (p ++ typeName TAG_Compound))
                           ++ ("(" ++ dq ++ nm ++ dq ++ "): "
                               ++ fmt_d (Z.of_nat (List.length l))
                               ++ " entries" ++ nl ++ p ++ "{" ++ nl)) ;;
     Ok (buffer ++ (p ++ "}" ++ nl)))%string.
Proof. reflexivity. Qed.

Lemma Print_List (buffer p nm : string) (ty : TagType) (l : list Tag) :
  Print' buffer p (mkNamedTag TAG_List nm (TListTag ty l))
  = (buffer <- forRange (fun buffer element =>
                           printUnnamedTag' buffer ("  " ++ p) element ty)
                        l ((buffer ++ (p ++ typeName TAG_List))
                           ++ ("(" ++ dq ++ nm ++ dq ++ "): "
                               ++ fmt_d (Z.of_nat (List.length l))
                               ++ " entries of type " ++ typeName ty
                               ++ nl ++ p ++ "{" ++ nl)) ;;
     Ok (buffer ++ (p ++ "}" ++ nl)))%string.
Proof. reflexivity. Qed.

Lemma Print_renders_aux (v : Tag) :
  (forall ty depth buffer, shape ty v = true ->
     printUnnamedTag' buffer (indent depth prefix) v ty
     = Ok (buffer ++ renderUnnamed' depth ty v)%string) /\
  (forall ty nm depth buffer, shape ty v = true ->
     Print' buffer (indent depth prefix) (mkNamedTag ty nm v)
     = Ok (buffer ++ renderNamed' depth (mkNamedTag ty nm v))%string).
Proof.
  induction v using Tag_nested_ind
    with (Q := fun t => forall depth buffer, shapeNamed t = true ->
                 Print' buffer (indent depth prefix) t
                 = Ok (buffer ++ renderNamed' depth t)%string);
    try (split; intros; scalar_case).
  - (* TCompound *)
    assert (forall depth, forallb shapeNamed l = true ->
              Forall (fun e => forall buffer,
                        Print' buffer ("  " ++ indent depth prefix) e
                        = Ok (buffer ++ renderNamed' (S depth) e)%string) l)
      as Hl.
    { intros depth Hs. rewrite forallb_forall in Hs.
      rewrite Forall_forall in H |- *. intros e He buffer.
      apply (H e He (S depth)). apply Hs. exact He. }
    split; intros; cbn [shape] in *;
      match goal with
      | S : _ && _ = true |- _ =>
          apply andb_true_iff in S; destruct S as [S1 S2];
          apply Z.eqb_eq in S1; subst
      end.
    + rewrite printUnnamedTag_Compound.
      rewrite (forRange_appends _ _ _ (Hl depth S2)). cbn [bind].
      subst renderUnnamed'. unfold renderUnnamed. cbn [renderBody].
      rewrite ?append_assoc. reflexivity.
    + rewrite Print_Compound.
      rewrite (forRange_appends _ _ _ (Hl depth S2)). cbn [bind].
      subst renderNamed'. cbn [renderNamed renderBody].
      rewrite ?append_assoc. reflexivity.
  - (* TListTag *)
    assert (forall depth, forallb (shape ty) l = true ->
              Forall (fun e => forall buffer,
                        printUnnamedTag' buffer ("  " ++ indent depth prefix) e ty
                        = Ok (buffer ++ renderUnnamed' (S depth) ty e)%string) l)
      as Hl.
    { intros depth Hs. rewrite forallb_forall in Hs.
      rewrite Forall_forall in H |- *. intros e He buffer.
      apply (proj1 (H e He) ty (S depth)). apply Hs. exact He. }
    split; intros; cbn [shape] in *;
      match goal with
      | S : _ && _ = true |- _ =>
          apply andb_true_iff in S; destruct S as [S1 S2];
          apply Z.eqb_eq in S1; subst
      end.
    + rewrite printUnnamedTag_List.
      rewrite (forRange_appends _ _ _ (Hl depth S2)). cbn [bind].
      subst renderUnnamed'. unfold renderUnnamed. cbn [renderBody].
      rewrite ?append_assoc. reflexivity.
    + rewrite Print_List.
      rewrite (forRange_appends _ _ _ (Hl depth S2)). cbn [bind].
      subst renderNamed'. unfold renderUnnamed. cbn [renderNamed renderBody].
      rewrite ?append_assoc. reflexivity.
  - (* mkNamedTag *)
    intros depth buffer Hs. apply IHv. exact Hs.
Qed.

End RenderCorrect.

(** ** The entry point *)

Lemma parseNamedTag_more_fuel (fuel1 fuel2 : nat) (data : slice) :
  (fuel1 <= fuel2)%nat ->
  parseNamedTag (tagParseFuncsRef fuel1) data <> OutOfFuel ->
  parseNamedTag (tagParseFuncsRef fuel2) data
  = parseNamedTag (tagParseFuncsRef fuel1) data.
Proof.
  intros Hle. apply parseNamedTag_mono. apply tagParseFuncsRef_mono. exact Hle.
Qed.

Lemma fuelFor_enough (data : slice) :
  fits data ->
  parseNamedTag (tagParseFuncsRef (fuelFor data)) data <> OutOfFuel.
Proof.
  intros Hf. apply parseNamedTag_fuel_total; [exact Hf|].
  unfold fuelFor, len. lia.
Qed.

(* the outcome of the decode does not depend on the fuel, once there is
   enough of it *)
Lemma parseNamedTag_any_fuel (fuel : nat) (data : slice) :
  fits data ->
  parseNamedTag (tagParseFuncsRef fuel) data <> OutOfFuel ->
  parseNamedTag (tagParseFuncsRef (fuelFor data)) data
  = parseNamedTag (tagParseFuncsRef fuel) data.
Proof.
  intros Hf Hr.
  destruct (Nat.le_ge_cases fuel (fuelFor data)) as [Hle|Hle].
  - apply parseNamedTag_more_fuel; assumption.
  - symmetry. apply parseNamedTag_more_fuel; [exact Hle|].
    apply fuelFor_enough. exact Hf.
Qed.

Lemma parseNamedTag_extends (fuel : nat) (s s' : slice) (r : NamedTag * Z) :
  extends s s' ->
  parseNamedTag (tagParseFuncsRef fuel) s = Ok r ->
  parseNamedTag (tagParseFuncsRef fuel) s' = Ok r.
Proof.
  intros Hext H. rewrite <- H.
  apply parseNamedTag_local; [apply tagParseFuncsRef_local | exact Hext|].
  rewrite H. exact I.
Qed.

Lemma extends_buffer (v extra hidden : list byte) :
  extends (buffer v) (mkSlice (v ++ extra) hidden).
Proof.
  split.
  - exists (extra ++ hidden). unfold backing, buffer. simpl.
    rewrite app_nil_r, app_assoc. reflexivity.
  - unfold len, buffer. simpl. rewrite length_app. lia.
Qed.

Lemma extends_truncated (v : list byte) (m : nat) :
  extends (buffer (firstn m v)) (buffer v).
Proof.
  split.
  - exists (skipn m v). unfold backing, buffer. simpl.
    rewrite !app_nil_r. symmetry. apply firstn_skipn.
  - unfold len, buffer. simpl. rewrite length_firstn. lia.
Qed.

Lemma fits_extends (s s' : slice) : extends s s' -> fits s' -> fits s.
Proof.
  intros [[e He] _]. unfold fits, cap. rewrite He, length_app. lia.
Qed.

Lemma parseNamedTag_no_fuel (data : slice) (r : NamedTag * Z) :
  parseNamedTag (tagParseFuncsRef 0) data <> Ok r.
Proof.
  intros H. unfold parseNamedTag in H.
  destruct (index data 0); cbn [bind] in H; try discriminate.
  match type of H with
  | bind ?hdr _ = _ => destruct hdr as [[nm payloadStart]| | |]
  end; cbn [bind] in H; try discriminate.
  destruct (slice_from data payloadStart); cbn [bind] in H; discriminate.
Qed.

Lemma childrenAt_not_End (ref : TagType -> decoder) (payload : slice)
      (children : list NamedTag) :
  forall off lens,
    childrenAt ref payload off children lens ->
    List.length lens = List.length children /\
    Forall (fun c => tagType c <> TAG_End) children.
Proof.
  induction children as [|c cs IH]; intros off [|n ns] H;
    cbn [childrenAt] in H; try contradiction.
  - split; [reflexivity | constructor].
  - destruct H as (_ & Hc & H). destruct (IH _ _ H) as [Hl Hf].
    cbn [List.length]. split; [congruence | constructor; assumption].
Qed.

Lemma ParseNBT_plain (decompress : slice -> result (option slice))
      (fuel : nat) (data : slice) :
  fits data ->
  parseNamedTag (tagParseFuncsRef fuel) data <> OutOfFuel ->
  ParseNBT decompress data false
  = ('(tag, _) <- parseNamedTag (tagParseFuncsRef fuel) data ;; Ok tag).
Proof.
  intros Hf Hr. unfold ParseNBT.
  rewrite (parseNamedTag_any_fuel fuel data Hf Hr). reflexivity.
Qed.

(** * The claims *)

Ltac closed_arith :=
  vm_compute; first [ reflexivity | intuition congruence ].

(** C1, as the code has it: the decoder has no bounds check of its own and
    no truncated-input error; a read is checked by the Go runtime only: an
    index at or past the length and a slice end past the capacity panic.
    For a buffer without spare capacity, cutting an input that decodes
    successfully to fewer bytes than the decode consumed makes the entry
    point panic with an index or slice bounds error; it never returns a
    tag. *)
Theorem truncated_input_panics
        (decompress : slice -> result (option slice))
        (fuel : nat) (v : list byte) (tag : NamedTag) (n : Z) (m : nat) :
  fits (buffer v) ->
  parseNamedTag (tagParseFuncsRef fuel) (buffer v) = Ok (tag, n) ->
  Z.of_nat m < n ->
  (ParseNBT decompress (buffer (firstn m v)) false = Panic IndexOutOfRange \/
   ParseNBT decompress (buffer (firstn m v)) false = Panic SliceBoundsOutOfRange) /\
  (forall s i, ~ (0 <= i < len s) -> index s i = Panic IndexOutOfRange) /\
  (forall s lo hi, cap s < hi -> reslice s lo hi = Panic SliceBoundsOutOfRange).
Proof.
  intros Hf H Hm. split; [|split].
  - pose proof (extends_truncated v m) as Hext.
    pose proof (fits_extends _ _ Hext Hf) as Hf'.
    set (s := buffer (firstn m v)) in *.
    pose proof (fuelFor_enough s Hf') as Hfuel.
    set (F := Nat.max (fuelFor s) fuel).
    assert (parseNamedTag (tagParseFuncsRef F) s
            = parseNamedTag (tagParseFuncsRef (fuelFor s)) s) as Hs
        by (apply parseNamedTag_more_fuel; [apply Nat.le_max_l | exact Hfuel]).
    assert (parseNamedTag (tagParseFuncsRef F) (buffer v) = Ok (tag, n)) as Hv.
    { rewrite <- H. apply parseNamedTag_more_fuel; [apply Nat.le_max_r|].
      rewrite H. discriminate. }
    assert (~ decisive (parseNamedTag (tagParseFuncsRef (fuelFor s)) s)) as Hnd.
    { rewrite <- Hs. intros Hd.
      pose proof (parseNamedTag_local _ (tagParseFuncsRef_local F)
                    s (buffer v) Hext Hd) as Hl.
      rewrite Hv in Hl. symmetry in Hl.
      pose proof (parseNamedTag_bounded _ (tagParseFuncsRef_bounded F)
                    s tag n Hf' Hl) as Hb.
      unfold cap, backing, s, buffer in Hb. simpl in Hb.
      rewrite app_nil_r, length_firstn in Hb. lia. }
    unfold ParseNBT.
    destruct (parseNamedTag (tagParseFuncsRef (fuelFor s)) s)
      as [r|[]| |]; cbn [bind decisive] in *; auto; try contradiction;
      exfalso; apply Hnd; exact I.
  - intros s i. apply index_out_of_range.
  - intros s lo hi Hc. apply reslice_Panic. lia.
Qed.

Lemma truncated_input_panics_witness :
  fits (buffer [x0a; x00; x00; x01; x00; x01; x78; x07; x00]) /\
  parseNamedTag (tagParseFuncsRef 4)
                (buffer [x0a; x00; x00; x01; x00; x01; x78; x07; x00])
  = Ok (mkNamedTag TAG_Compound EmptyString
          (TCompound [mkNamedTag TAG_Byte "x" (TUint8 x07)]), 9) /\
  Z.of_nat 8 < 9 /\
  (ParseNBT (fun _ => Ok None)
            (buffer (firstn 8 [x0a; x00; x00; x01; x00; x01; x78; x07; x00]))
            false = Panic IndexOutOfRange \/
   ParseNBT (fun _ => Ok None)
            (buffer (firstn 8 [x0a; x00; x00; x01; x00; x01; x78; x07; x00]))
            false = Panic SliceBoundsOutOfRange).
Proof.
  assert (fits (buffer [x0a; x00; x00; x01; x00; x01; x78; x07; x00])) as H1
      by closed_arith.
  assert (parseNamedTag (tagParseFuncsRef 4)
            (buffer [x0a; x00; x00; x01; x00; x01; x78; x07; x00])
          = Ok (mkNamedTag TAG_Compound EmptyString
                  (TCompound [mkNamedTag TAG_Byte "x" (TUint8 x07)]), 9)) as H2
      by closed_arith.
  assert (Z.of_nat 8 < 9) as H3 by closed_arith.
  split; [exact H1|]. split; [exact H2|]. split; [exact H3|].
  exact (proj1 (truncated_input_panics (fun _ => Ok None) 4 _ _ _ 8 H1 H2 H3)).
Defined.

(** C1 as stated fails: a Short tag cut after its header, in a slice whose
    backing array has two more bytes of capacity (as the buffers of
    ioutil.ReadFile and bytes.Buffer have), is decoded without any failure:
    [payload[0:2]] is checked against the capacity, so the two bytes past
    the end of the input are read as the value.  The complete input
    02 00 00 00 05 holds the Short 5; the cut one yields the Short 0. *)
Lemma truncated_input_counterexample :
  ParseNBT (fun _ => Ok None) (buffer [x02; x00; x00; x00; x05]) false
  = Ok (mkNamedTag TAG_Short EmptyString (TInt16 5)) /\
  len (mkSlice [x02; x00; x00] [x00; x00]) = 3 /\
  ParseNBT (fun _ => Ok None) (mkSlice [x02; x00; x00] [x00; x00]) false
  = Ok (mkNamedTag TAG_Short EmptyString (TInt16 0)) /\
  ParseNBT (fun _ => Ok None) (buffer []) false = Panic IndexOutOfRange.
Proof. repeat split; vm_compute; reflexivity. Qed.

(** C2, as the code has it: a tag type outside 0-10 has no entry in the
    table, and calling the missing entry is a nil-function call: the decode
    panics with a nil dereference, which carries no byte offset, and no
    error value is returned.  A named tag of such a type panics with it once
    its name is read (with a slice bounds panic when the name is cut short),
    and a list of such an element type panics with it when its count is at
    least 1 and its payload has the 5 header bytes. *)
Theorem unsupported_type_panics (fuel : nat) (ty : TagType) :
  ~ (0 <= ty <= 10) ->
  (forall s, tagParseFuncsRef (S fuel) ty s = Panic NilDereference) /\
  (forall data b,
      index data 0 = Ok b -> byteZ b = ty ->
      (parseNamedTag (tagParseFuncsRef (S fuel)) data = Panic SliceBoundsOutOfRange \/
       parseNamedTag (tagParseFuncsRef (S fuel)) data = Panic NilDereference) /\
      (nameLengthOf data <= 65532 -> 3 + nameLengthOf data <= len data ->
       parseNamedTag (tagParseFuncsRef (S fuel)) data = Panic NilDereference)) /\
  (forall payload b,
      index payload 0 = Ok b -> byteZ b = ty -> 1 <= countOf payload ->
      (parseListTag (tagParseFuncsRef (S fuel)) payload = Panic SliceBoundsOutOfRange \/
       parseListTag (tagParseFuncsRef (S fuel)) payload = Panic NilDereference) /\
      (5 <= len payload ->
       parseListTag (tagParseFuncsRef (S fuel)) payload = Panic NilDereference)).
Proof.
  intros Hty.
  assert (forall s, tagParseFuncsRef (S fuel) ty s = Panic NilDereference) as Hnil
      by (intros s; cbn [tagParseFuncsRef]; apply call_unsupported; exact Hty).
  split; [exact Hnil|]. split.
  - intros data b E Hb.
    assert (byteZ b <> TAG_End) as Hne by (unfold TAG_End; lia).
    assert (nameLengthOf data <= 65532 -> 3 + nameLengthOf data <= len data ->
            parseNamedTag (tagParseFuncsRef (S fuel)) data = Panic NilDereference)
      as Hfit.
    { intros HL Hlen.
      destruct (parseNamedTag_named (tagParseFuncsRef (S fuel)) data b E Hne HL Hlen)
        as (rest & _ & Eq).
      rewrite Eq, Hb, Hnil. reflexivity. }
    split; [|exact Hfit].
    destruct (Z_lt_dec (cap data) 3) as [Hc|Hc].
    { left. apply (parseNamedTag_no_header _ data b E Hne Hc). }
    destruct (Z_le_dec 65533 (nameLengthOf data)) as [HL|HL].
    { left. apply (parseNamedTag_wrapped _ data b E Hne ltac:(lia) HL). }
    destruct (Z_le_dec (3 + nameLengthOf data) (len data)) as [Hlen|Hlen].
    { right. apply Hfit; lia. }
    left. rewrite (parseNamedTag_header _ data b E Hne ltac:(lia)).
    pose proof (nameLengthOf_range data ltac:(lia)) as R.
    assert (add16 3 (nameLengthOf data) = 3 + nameLengthOf data) as ->
        by (apply Z.mod_small; lia).
    destruct (reslice_cases data 3 (3 + nameLengthOf data)) as [[nm En]|En];
      rewrite En; [|reflexivity]. cbn [bind].
    unfold slice_from. rewrite reslice_Panic by lia. reflexivity.
  - intros payload b E Hb Hcount.
    assert (5 <= len payload ->
            parseListTag (tagParseFuncsRef (S fuel)) payload = Panic NilDereference)
      as Hfit.
    { intros Hlen. pose proof (len_le_cap payload).
      unfold parseListTag. rewrite E. cbn [bind].
      rewrite (read32 payload 1) by lia. fold (countOf payload).
      destruct (Z.to_nat (countOf payload)) as [|turns] eqn:Et; [lia|].
      cbn [parseListTag_loop].
      destruct (slice_from_in_len payload 5) as [rest Er]; [lia|].
      rewrite Er. cbn [bind]. rewrite Hb, Hnil. reflexivity. }
    split; [|exact Hfit].
    destruct (Z_le_dec 5 (len payload)) as [Hlen|Hlen]; [right; auto|].
    left. unfold parseListTag. rewrite E. cbn [bind].
    destruct (Z_le_dec 5 (cap payload)) as [Hc|Hc];
      [|rewrite read_short by lia; reflexivity].
    rewrite (read32 payload 1) by lia. fold (countOf payload).
    destruct (Z.to_nat (countOf payload)) as [|turns] eqn:Et; [lia|].
    cbn [parseListTag_loop].
    unfold slice_from. rewrite reslice_Panic by lia. reflexivity.
Qed.

Lemma unsupported_type_panics_witness :
  ~ (0 <= 11 <= 10) /\
  index (buffer [x0b; x00; x00; x00; x01]) 0 = Ok x0b /\
  byteZ x0b = 11 /\
  1 <= countOf (buffer [x0b; x00; x00; x00; x01]) /\
  5 <= len (buffer [x0b; x00; x00; x00; x01]) /\
  parseListTag (tagParseFuncsRef 1) (buffer [x0b; x00; x00; x00; x01])
  = Panic NilDereference.
Proof.
  assert (~ (0 <= 11 <= 10)) as H1 by closed_arith.
  assert (index (buffer [x0b; x00; x00; x00; x01]) 0 = Ok x0b) as H2
      by reflexivity.
  assert (byteZ x0b = 11) as H3 by reflexivity.
  assert (1 <= countOf (buffer [x0b; x00; x00; x00; x01])) as H4 by closed_arith.
  assert (5 <= len (buffer [x0b; x00; x00; x00; x01])) as H5 by closed_arith.
  split; [exact H1|]. split; [exact H2|]. split; [exact H3|].
  split; [exact H4|]. split; [exact H5|].
  exact (proj2 (proj2 (proj2 (unsupported_type_panics 0 11 H1)) _ _ H2 H3 H4) H5).
Defined.

(** C2 as stated fails: a named tag of type 0x0B at offset 0 and a list
    whose element-type byte 0x0B sits at offset 3 end in the very same
    outcome, a nil-dereference panic: no unsupported-tag-type error is
    returned and nothing in the outcome identifies the offset of the byte. *)
Lemma unsupported_type_counterexample :
  parseNamedTag (tagParseFuncsRef 3) (buffer [x0b; x00; x00])
  = Panic NilDereference /\
  parseNamedTag (tagParseFuncsRef 3)
                (buffer [x09; x00; x00; x0b; x00; x00; x00; x01])
  = Panic NilDereference /\
  ~ (exists offsetOf : result (NamedTag * Z) -> Z,
        offsetOf (parseNamedTag (tagParseFuncsRef 3) (buffer [x0b; x00; x00])) = 0 /\
        offsetOf (parseNamedTag (tagParseFuncsRef 3)
                    (buffer [x09; x00; x00; x0b; x00; x00; x00; x01])) = 3).
Proof.
  assert (parseNamedTag (tagParseFuncsRef 3) (buffer [x0b; x00; x00])
          = Panic NilDereference) as H1 by (vm_compute; reflexivity).
  assert (parseNamedTag (tagParseFuncsRef 3)
            (buffer [x09; x00; x00; x0b; x00; x00; x00; x01])
          = Panic NilDereference) as H2 by (vm_compute; reflexivity).
  split; [exact H1|]. split; [exact H2|].
  intros (offsetOf & Ha & Hb). rewrite H1 in Ha. rewrite H2 in Hb. lia.
Qed.

(** C3: a named-tag decode of a buffer whose type byte is not End returns
    exactly when the 2-byte big-endian name length L (at most 65532, see
    C8) and the L name bytes are there and the table's decoder for that
    type returns on the rest; the tag then carries the type, the L bytes
    after the length as its name and that payload, and the bytes consumed
    are 1 + 2 + L + payloadBytes.  When the type byte is End the decode
    returns the End tag with the empty name and the empty payload and
    consumes 1 byte, whatever follows.  The bytes 01 00 03 61 62 63 05
    decode to the Byte named abc with value 5, consuming 7 bytes. *)
Theorem named_tag_decode (fuel : nat) (data : slice) (b : byte) :
  fits data -> index data 0 = Ok b ->
  (byteZ b = TAG_End ->
   parseNamedTag (tagParseFuncsRef (S fuel)) data
   = Ok (mkNamedTag TAG_End EmptyString TNil, 1)) /\
  (byteZ b <> TAG_End ->
   forall t n,
     parseNamedTag (tagParseFuncsRef fuel) data = Ok (t, n) <->
     exists rest pl payloadBytes,
       nameLengthOf data <= 65532 /\
       slice_from data (3 + nameLengthOf data) = Ok rest /\
       tagParseFuncsRef fuel (byteZ b) rest = Ok (pl, payloadBytes) /\
       t = mkNamedTag (byteZ b)
             (string_of_list_byte (bytesAt data 3 (nameLengthOf data))) pl /\
       n = 1 + 2 + nameLengthOf data + payloadBytes) /\
  parseNamedTag (tagParseFuncsRef (S fuel))
                (buffer [x01; x00; x03; x61; x62; x63; x05])
  = Ok (mkNamedTag TAG_Byte "abc" (TUint8 x05), 7).
Proof.
  intros Hf E. split; [|split].
  - apply parseNamedTag_End. exact E.
  - intros Hb t n.
    assert (forall rest pl plen,
               slice_from data (3 + nameLengthOf data) = Ok rest ->
               tagParseFuncsRef fuel (byteZ b) rest = Ok (pl, plen) ->
               addUint (3 + nameLengthOf data) plen
               = 1 + 2 + nameLengthOf data + plen) as Hsum.
    { intros rest pl plen Er Ep. unfold fits in Hf.
      pose proof (slice_from_len_cap _ _ _ Er) as (? & ? & ?).
      pose proof (tagParseFuncsRef_bounded fuel _ rest pl plen
                    ltac:(unfold fits; lia) Ep).
      rewrite addUint_small by lia. lia. }
    split.
    + intros H.
      destruct (parseNamedTag_decoded _ data b t n E Hb H)
        as (HL & Hlen & rest & pl & plen & Er & Ep & Ht & Hn).
      exists rest, pl, plen. rewrite (Hsum rest pl plen Er Ep) in Hn. auto 10.
    + intros (rest & pl & plen & HL & Er & Ep & Ht & Hn).
      pose proof (slice_from_len_cap _ _ _ Er) as (? & ? & ?).
      destruct (parseNamedTag_named (tagParseFuncsRef fuel) data b E Hb HL
                  ltac:(lia)) as (rest' & Er' & Eq).
      rewrite Er in Er'. inversion Er'; subst rest'.
      rewrite Eq, Ep. cbn [bind]. rewrite (Hsum rest pl plen Er Ep).
      subst. reflexivity.
  - reflexivity.
Qed.

Lemma named_tag_decode_witness :
  fits (buffer [x08; x00; x01; x6b; x00; x02; x68; x69; xff]) /\
  index (buffer [x08; x00; x01; x6b; x00; x02; x68; x69; xff]) 0 = Ok x08 /\
  byteZ x08 <> TAG_End /\
  parseNamedTag (tagParseFuncsRef 1)
                (buffer [x08; x00; x01; x6b; x00; x02; x68; x69; xff])
  = Ok (mkNamedTag TAG_String "k" (TString "hi"), 8).
Proof.
  assert (fits (buffer [x08; x00; x01; x6b; x00; x02; x68; x69; xff])) as H1
      by (vm_compute; reflexivity).
  assert (index (buffer [x08; x00; x01; x6b; x00; x02; x68; x69; xff]) 0
          = Ok x08) as H2 by reflexivity.
  assert (byteZ x08 <> TAG_End) as H3 by closed_arith.
  split; [exact H1|]. split; [exact H2|]. split; [exact H3|].
  apply (proj2 (proj1 (proj2 (named_tag_decode 1 _ _ H1 H2)) H3 _ _)).
  exists (buffer [x00; x02; x68; x69; xff]), (TString "hi"), 4.
  repeat split; closed_arith.
Defined.

(** C4: whenever a compound payload decode returns, it returns the
    children that the named-tag decoder yields at consecutive offsets, in
    that order, none of them an End tag; right after the last child the
    named-tag decoder yields the End tag, consuming 1 byte, which is not
    among the children; and the total consumed is the sum of the
    children's consumed counts plus 1. *)
Theorem compound_decode (fuel : nat) (payload : slice) (v : Tag) (total : Z) :
  fits payload ->
  tagParseFuncsRef (S fuel) TAG_Compound payload = Ok (v, total) ->
  exists children lens,
    v = TCompound children /\
    childrenAt (tagParseFuncsRef fuel) payload 0 children lens /\
    List.length lens = List.length children /\
    Forall (fun c => tagType c <> TAG_End) children /\
    (exists rest,
        slice_from payload (sumZ lens) = Ok rest /\
        parseNamedTag (tagParseFuncsRef fuel) rest
        = Ok (mkNamedTag TAG_End EmptyString TNil, 1)) /\
    total = sumZ lens + 1.
Proof.
  intros Hf H. cbn [tagParseFuncsRef] in H. table_simpl_in H.
  unfold parseCompoundTag in H.
  apply (parseCompoundTag_loop_decoded _ (tagParseFuncsRef_bounded fuel)) in H;
    [|exact Hf|lia].
  destruct H as (cs & ns & rest & e & elen & Hv & Hcs & Er & Ee & Hte & Ht).
  destruct (childrenAt_not_End _ _ _ _ _ Hcs) as [Hlen Hne].
  destruct (tagType_decoded _ _ _ _ Ee) as (b & Eb & Hb).
  destruct fuel as [|fuel]; [exfalso; exact (parseNamedTag_no_fuel _ _ Ee)|].
  rewrite (parseNamedTag_End fuel rest b Eb ltac:(congruence)) in Ee.
  inversion Ee; subst e elen.
  exists cs, ns. cbn [app] in Hv. rewrite Z.add_0_l in Er, Ht.
  repeat split; try assumption.
  exists rest. split; [exact Er|].
  apply (parseNamedTag_End fuel rest b Eb). congruence.
Qed.

Lemma compound_decode_witness :
  fits twoChildren /\
  tagParseFuncsRef 5 TAG_Compound twoChildren
  = Ok (TCompound [mkNamedTag TAG_Byte "x" (TUint8 x07);
                   mkNamedTag TAG_Short "y" (TInt16 256)], 12) /\
  exists children lens,
    TCompound [mkNamedTag TAG_Byte "x" (TUint8 x07);
               mkNamedTag TAG_Short "y" (TInt16 256)] = TCompound children /\
    childrenAt (tagParseFuncsRef 4) twoChildren 0 children lens /\
    List.length lens = List.length children /\
    Forall (fun c => tagType c <> TAG_End) children /\
    (exists rest,
        slice_from twoChildren (sumZ lens) = Ok rest /\
        parseNamedTag (tagParseFuncsRef 4) rest
        = Ok (mkNamedTag TAG_End EmptyString TNil, 1)) /\
    12 = sumZ lens + 1.
Proof.
  assert (fits twoChildren) as H1 by closed_arith.
  assert (tagParseFuncsRef 5 TAG_Compound twoChildren
          = Ok (TCompound [mkNamedTag TAG_Byte "x" (TUint8 x07);
                           mkNamedTag TAG_Short "y" (TInt16 256)], 12)) as H2
      by closed_arith.
  split; [exact H1|]. split; [exact H2|].
  exact (compound_decode 4 _ _ _ H1 H2).
Defined.

(** C5: whenever a list payload decode returns, it has read the first byte
    as the element type and the next four, big-endian, as the count N, and
    it returns exactly N elements: what the table's decoder for the element
    type yields on the bare payload at consecutive offsets from 5 on, with
    no name field in between.  The total consumed is 5 plus the sum of the
    elements' consumed counts, and every element has the shape of the
    element type. *)
Theorem list_decode (fuel : nat) (payload : slice) (v : Tag) (total : Z) :
  fits payload ->
  tagParseFuncsRef (S fuel) TAG_List payload = Ok (v, total) ->
  exists b elems lens,
    index payload 0 = Ok b /\ 5 <= cap payload /\
    v = TListTag (byteZ b) elems /\
    Z.of_nat (List.length elems) = countOf payload /\
    elementsAt (tagParseFuncsRef fuel) payload (byteZ b) 5 elems lens /\
    total = 5 + sumZ lens /\
    forallb (shape (byteZ b)) elems = true.
Proof.
  intros Hf H.
  pose proof (tagParseFuncsRef_shaped _ _ _ _ _ H) as Hs.
  cbn [tagParseFuncsRef] in H. table_simpl_in H. unfold parseListTag in H.
  apply bind_Ok in H. destruct H as (b & Eb & H).
  destruct (Z_le_dec 5 (cap payload)) as [Hc|Hc];
    [|rewrite read_short in H by lia; discriminate H].
  rewrite (read32 payload 1) in H by lia. fold (countOf payload) in H.
  apply bind_Ok in H. destruct H as ([ret current] & El & H).
  inversion H; subst v total; clear H.
  apply (parseListTag_loop_decoded _ (tagParseFuncsRef_bounded fuel)) in El;
    [|exact Hf|lia].
  destruct El as (elems & lens & Hr & Hlen & Hes & Ht).
  cbn [app] in Hr. subst ret.
  pose proof (bytesAt_range payload 1 4 ltac:(lia) ltac:(lia) ltac:(lia)) as R.
  fold (countOf payload) in R.
  cbn [shape] in Hs. apply andb_true_iff in Hs. destruct Hs as [_ Hs].
  exists b, elems, lens. repeat split; try assumption; lia.
Qed.

Lemma list_decode_witness :
  fits twoShorts /\
  tagParseFuncsRef 2 TAG_List twoShorts
  = Ok (TListTag TAG_Short [TInt16 1; TInt16 (-1)], 9) /\
  exists b elems lens,
    index twoShorts 0 = Ok b /\ 5 <= cap twoShorts /\
    TListTag TAG_Short [TInt16 1; TInt16 (-1)] = TListTag (byteZ b) elems /\
    Z.of_nat (List.length elems) = countOf twoShorts /\
    elementsAt (tagParseFuncsRef 1) twoShorts (byteZ b) 5 elems lens /\
    9 = 5 + sumZ lens /\
    forallb (shape (byteZ b)) elems = true.
Proof.
  assert (fits twoShorts) as H1 by closed_arith.
  assert (tagParseFuncsRef 2 TAG_List twoShorts
          = Ok (TListTag TAG_Short [TInt16 1; TInt16 (-1)], 9)) as H2
      by closed_arith.
  split; [exact H1|]. split; [exact H2|].
  exact (list_decode 1 _ _ _ H1 H2).
Defined.

(** C6: every scalar payload decoder consumes exactly the width of its wire
    layout (End 0, Byte 1, Short 2, Int 4, Long 8, Float 4, Double 8,
    ByteArray 4+N, String 2+N) and reads every multi-byte number and length
    prefix in big-endian order: whenever it returns, it returns the value and
    width of [scalarValue] and [scalarWidth]; it does return whenever the
    bytes are there; and the bytes 00 00 00 05 decode as the Int 5,
    consuming 4 bytes. *)
Theorem scalar_payload_widths (fuel : nat) (ty : TagType) (payload : slice) :
  0 <= ty <= 8 ->
  (forall v n,
      tagParseFuncsRef (S fuel) ty payload = Ok (v, n) ->
      n = scalarWidth ty (backing payload) /\
      v = scalarValue ty (backing payload)) /\
  (scalarReadable ty payload ->
   tagParseFuncsRef (S fuel) ty payload
   = Ok (scalarValue ty (backing payload), scalarWidth ty (backing payload))) /\
  tagParseFuncsRef (S fuel) TAG_Int (buffer [x00; x00; x00; x05])
  = Ok (TInt32 5, 4).
Proof.
  intros Hty. split; [|split].
  - intros v n. apply scalar_decoded. exact Hty.
  - apply scalar_decodes. exact Hty.
  - reflexivity.
Qed.

Lemma scalar_payload_widths_witness :
  0 <= TAG_Long <= 8 /\
  scalarReadable TAG_Long
    (buffer [xff; xff; xff; xff; xff; xff; xff; xfe; x2a]) /\
  tagParseFuncsRef 1 TAG_Long
    (buffer [xff; xff; xff; xff; xff; xff; xff; xfe; x2a])
  = Ok (TInt64 (-2), 8).
Proof.
  assert (0 <= TAG_Long <= 8) as H1 by closed_arith.
  assert (scalarReadable TAG_Long
            (buffer [xff; xff; xff; xff; xff; xff; xff; xfe; x2a])) as H2
      by (repeat split; closed_arith).
  split; [exact H1|]. split; [exact H2|].
  exact (proj1 (proj2 (scalar_payload_widths 0 TAG_Long _ H1)) H2).
Defined.

(** C7: for every decoded tree, every prefix and every buffer, the renderer
    appends to the buffer the text of [renderNamed] at depth 0: for a named
    tag the line [<prefix><TagType>("<name>"): <rendering>], for a list
    element the line [<prefix><TagType>: <rendering>]; the rendering of a
    Compound or a List is its count, then a line [<prefix>{], then its
    children or elements, then a line [<prefix>}], and a tag nested [depth]
    levels down is rendered with [indent depth prefix], which is exactly
    two characters (two spaces) longer per level. *)
Theorem renderer_lines
        (fmtFloat32 fmtFloat64 : Z -> string) (fmtOther : Tag -> string)
        (prefix buffer : string) :
  (forall fuel data t n,
      parseNamedTag (tagParseFuncsRef fuel) data = Ok (t, n) ->
      Print fmtFloat32 fmtFloat64 fmtOther buffer prefix t
      = Ok (buffer ++ renderNamed fmtFloat32 fmtFloat64 fmtOther prefix 0 t)%string) /\
  (forall fuel ty payload v n,
      tagParseFuncsRef fuel ty payload = Ok (v, n) ->
      printUnnamedTag fmtFloat32 fmtFloat64 fmtOther buffer prefix v ty
      = Ok (buffer ++ renderUnnamed fmtFloat32 fmtFloat64 fmtOther prefix 0 ty v)%string) /\
  (forall depth,
      indent (S depth) prefix = ("  " ++ indent depth prefix)%string /\
      String.length (indent depth prefix)
      = (2 * depth + String.length prefix)%nat).
Proof.
  split; [|split].
  - intros fuel data [ty nm pl] n H.
    pose proof (parseNamedTag_shaped _ (tagParseFuncsRef_shaped fuel) _ _ _ H) as Hs.
    cbn [shapeNamed] in Hs.
    apply (proj2 (Print_renders_aux fmtFloat32 fmtFloat64 fmtOther prefix pl)
             ty nm 0%nat buffer Hs).
  - intros fuel ty s v n H.
    pose proof (tagParseFuncsRef_shaped fuel _ _ _ _ H) as Hs.
    apply (proj1 (Print_renders_aux fmtFloat32 fmtFloat64 fmtOther prefix v)
             ty 0%nat buffer Hs).
  - intros depth. split; [reflexivity | apply length_indent].
Qed.

Lemma renderer_lines_witness :
  parseNamedTag (tagParseFuncsRef 4) oneChild
  = Ok (mkNamedTag TAG_Compound EmptyString
          (TCompound [mkNamedTag TAG_Byte "x" (TUint8 x07)]), 9) /\
  Print (fun _ => EmptyString) (fun _ => EmptyString) (fun _ => EmptyString)
        EmptyString EmptyString
        (mkNamedTag TAG_Compound EmptyString
           (TCompound [mkNamedTag TAG_Byte "x" (TUint8 x07)]))
  = Ok ("TAG_Compound(" ++ dq ++ dq ++ "): 1 entries" ++ nl
        ++ "{" ++ nl
        ++ "  TAG_Byte(" ++ dq ++ "x" ++ dq ++ "): 7" ++ nl
        ++ "}" ++ nl)%string.
Proof.
  assert (parseNamedTag (tagParseFuncsRef 4) oneChild
          = Ok (mkNamedTag TAG_Compound EmptyString
                  (TCompound [mkNamedTag TAG_Byte "x" (TUint8 x07)]), 9)) as H
      by closed_arith.
  split; [exact H|].
  exact (proj1 (renderer_lines (fun _ => EmptyString) (fun _ => EmptyString)
                  (fun _ => EmptyString) EmptyString EmptyString) 4%nat _ _ _ H).
Defined.

(** C8, as the code has it: the named-tag decoder computes the end of the
    name and the start of the payload in 16-bit unsigned arithmetic as
    (3 + L) mod 2^16.  For a name length L of 65533 or more that value is
    L - 65533, below the start 3 of the name, so the slice expression
    [data[3 : 3+nameLength]] panics and no payload is decoded.  Whenever a
    named tag is decoded, L is at most 65532, nothing wraps, and the payload
    is decoded at offset 3 + L exactly. *)
Theorem name_length_wraparound
        (ref : TagType -> decoder) (data : slice) (b : byte) :
  index data 0 = Ok b -> byteZ b <> TAG_End -> 3 <= cap data ->
  (65533 <= nameLengthOf data ->
   add16 3 (nameLengthOf data) = nameLengthOf data - 65533 /\
   parseNamedTag ref data = Panic SliceBoundsOutOfRange) /\
  (forall t n,
      parseNamedTag ref data = Ok (t, n) ->
      nameLengthOf data <= 65532 /\
      add16 3 (nameLengthOf data) = 3 + nameLengthOf data /\
      exists rest pl payloadLength,
        slice_from data (3 + nameLengthOf data) = Ok rest /\
        ref (byteZ b) rest = Ok (pl, payloadLength) /\
        n = addUint (3 + nameLengthOf data) payloadLength).
Proof.
  intros E Hb Hc. split.
  - apply (parseNamedTag_wrapped ref data b E Hb Hc).
  - intros t n H.
    destruct (parseNamedTag_decoded ref data b t n E Hb H)
      as (HL & Hlen & rest & pl & plen & Er & Ep & _ & Hn).
    pose proof (nameLengthOf_range data Hc) as R.
    split; [exact HL|]. split; [apply Z.mod_small; lia|].
    exists rest, pl, plen. auto.
Qed.

Lemma name_length_wraparound_witness :
  index longNameTag 0 = Ok x01 /\ byteZ x01 <> TAG_End /\
  3 <= cap longNameTag /\ 65533 <= nameLengthOf longNameTag /\
  add16 3 (nameLengthOf longNameTag) = nameLengthOf longNameTag - 65533 /\
  parseNamedTag (tagParseFuncsRef 2) longNameTag = Panic SliceBoundsOutOfRange.
Proof.
  assert (index longNameTag 0 = Ok x01) as H1 by reflexivity.
  assert (byteZ x01 <> TAG_End) as H2 by closed_arith.
  assert (3 <= cap longNameTag) as H3 by closed_arith.
  assert (65533 <= nameLengthOf longNameTag) as H4 by closed_arith.
  split; [exact H1|]. split; [exact H2|]. split; [exact H3|]. split; [exact H4|].
  exact (proj1 (name_length_wraparound (tagParseFuncsRef 2) _ _ H1 H2 H3) H4).
Defined.

(** C8 as stated fails: on a complete Byte tag whose name is 65533 bytes
    long the payload is not decoded at the wrapped-around offset 0 (which
    would give the byte 01 and 1 byte consumed); the decode panics. *)
Lemma name_length_wraparound_counterexample :
  nameLengthOf longNameTag = 65533 /\
  add16 3 (nameLengthOf longNameTag) = 0 /\
  parseNamedTag (tagParseFuncsRef 2) longNameTag = Panic SliceBoundsOutOfRange /\
  (forall t n, parseNamedTag (tagParseFuncsRef 2) longNameTag <> Ok (t, n)).
Proof.
  assert (parseNamedTag (tagParseFuncsRef 2) longNameTag
          = Panic SliceBoundsOutOfRange) as H by (vm_compute; reflexivity).
  split; [vm_compute; reflexivity|]. split; [vm_compute; reflexivity|].
  split; [exact H|]. intros t n. rewrite H. discriminate.
Qed.

(** C9: a list payload whose count field is 0 decodes successfully to the
    empty list, consuming exactly 5 bytes, whatever its element-type byte is
    (also outside 0-10): the decoder table is not consulted, so the result
    is the same for any table. *)
Theorem empty_list_any_element_type
        (ref : TagType -> decoder) (fuel : nat) (payload : slice) (b : byte) :
  index payload 0 = Ok b -> 5 <= cap payload -> countOf payload = 0 ->
  parseListTag ref payload = Ok (TListTag (byteZ b) [], 5) /\
  tagParseFuncsRef (S fuel) TAG_List payload = Ok (TListTag (byteZ b) [], 5).
Proof.
  intros E Hc H0.
  assert (forall r, parseListTag r payload = Ok (TListTag (byteZ b) [], 5)) as H.
  { intros r. unfold parseListTag. rewrite E. cbn [bind].
    rewrite (read32 payload 1) by lia. fold (countOf payload). rewrite H0.
    reflexivity. }
  split; [apply H|]. cbn [tagParseFuncsRef]. table_simpl. apply H.
Qed.

Lemma empty_list_any_element_type_witness :
  index (buffer [x0b; x00; x00; x00; x00]) 0 = Ok x0b /\
  5 <= cap (buffer [x0b; x00; x00; x00; x00]) /\
  countOf (buffer [x0b; x00; x00; x00; x00]) = 0 /\
  parseListTag (fun _ _ => Panic NilDereference)
               (buffer [x0b; x00; x00; x00; x00])
  = Ok (TListTag 11 [], 5).
Proof.
  assert (index (buffer [x0b; x00; x00; x00; x00]) 0 = Ok x0b) as H1
      by reflexivity.
  assert (5 <= cap (buffer [x0b; x00; x00; x00; x00])) as H2 by closed_arith.
  assert (countOf (buffer [x0b; x00; x00; x00; x00]) = 0) as H3 by reflexivity.
  split; [exact H1|]. split; [exact H2|]. split; [exact H3|].
  exact (proj1 (empty_list_any_element_type
                  (fun _ _ => Panic NilDereference) 0 _ _ H1 H2 H3)).
Defined.

(** C10: the entry point decodes one named tag at offset 0 of the buffer
    and returns it without the consumed-byte count, the same tag for any
    sufficient recursion budget; bytes that follow the first complete
    named tag, within the length or in the spare capacity, neither fail
    the parse nor change the tag; a compressed input is parsed as its
    decompressed bytes are. *)
Theorem ParseNBT_first_tag
        (decompress : slice -> result (option slice)) (data : slice) :
  fits data ->
  (forall fuel,
      parseNamedTag (tagParseFuncsRef fuel) data <> OutOfFuel ->
      ParseNBT decompress data false
      = ('(tag, _) <- parseNamedTag (tagParseFuncsRef fuel) data ;; Ok tag)) /\
  ParseNBT decompress data false <> OutOfFuel /\
  (forall fuel v extra hidden tag n,
      data = mkSlice (v ++ extra) hidden ->
      parseNamedTag (tagParseFuncsRef fuel) (buffer v) = Ok (tag, n) ->
      ParseNBT decompress data false = Ok tag) /\
  (forall packed,
      decompress packed = Ok (Some data) ->
      ParseNBT decompress packed true = ParseNBT decompress data false).
Proof.
  intros Hf. split; [|split; [|split]].
  - intros fuel Hr. apply ParseNBT_plain; assumption.
  - unfold ParseNBT. apply bind_total; [apply fuelFor_enough; exact Hf|].
    intros [tag n] _. discriminate.
  - intros fuel v extra hidden tag n -> H.
    apply (parseNamedTag_extends fuel _ _ _ (extends_buffer v extra hidden)) in H.
    rewrite (ParseNBT_plain decompress fuel _ Hf) by (rewrite H; discriminate).
    rewrite H. reflexivity.
  - intros packed Hd. unfold ParseNBT. rewrite Hd. reflexivity.
Qed.

Lemma ParseNBT_first_tag_witness :
  fits (mkSlice [x01; x00; x01; x61; x2a; xde; xad] [xbe; xef]) /\
  parseNamedTag (tagParseFuncsRef 2) (buffer [x01; x00; x01; x61; x2a])
  = Ok (mkNamedTag TAG_Byte "a" (TUint8 x2a), 5) /\
  ParseNBT (fun _ => Ok None)
           (mkSlice [x01; x00; x01; x61; x2a; xde; xad] [xbe; xef]) false
  = Ok (mkNamedTag TAG_Byte "a" (TUint8 x2a)).
Proof.
  assert (fits (mkSlice [x01; x00; x01; x61; x2a; xde; xad] [xbe; xef])) as H1
      by closed_arith.
  assert (parseNamedTag (tagParseFuncsRef 2) (buffer [x01; x00; x01; x61; x2a])
          = Ok (mkNamedTag TAG_Byte "a" (TUint8 x2a), 5)) as H2 by closed_arith.
  split; [exact H1|]. split; [exact H2|].
  exact (proj1 (proj2 (proj2 (ParseNBT_first_tag (fun _ => Ok None) _ H1)))
           2%nat [x01; x00; x01; x61; x2a] [xde; xad] [xbe; xef] _ _
           eq_refl H2).
Defined.

(** * Further properties of the decoders *)

Lemma shape_known (ty : TagType) (v : Tag) : shape ty v = true -> 0 <= ty <= 10.
Proof.
  destruct v; cbn [shape]; intros H;
    try (apply andb_true_iff in H; destruct H as [H _]);
    apply Z.eqb_eq in H; subst; vm_compute; intuition congruence.
Qed.

Lemma named_consumed (fuel : nat) (data : slice) (t : NamedTag) (n : Z) :
  fits data ->
  parseNamedTag (tagParseFuncsRef fuel) data = Ok (t, n) ->
  (tagType t = TAG_End -> n = 1) /\
  (tagType t <> TAG_End -> 3 + nameLengthOf data <= n).
Proof.
  intros Hf H. destruct (tagType_decoded _ _ _ _ H) as (b & Eb & Hb).
  split; intros Ht.
  - destruct fuel as [|fuel]; [exfalso; exact (parseNamedTag_no_fuel _ _ H)|].
    rewrite (parseNamedTag_End fuel data b Eb ltac:(congruence)) in H.
    inversion H. reflexivity.
  - destruct (parseNamedTag_decoded _ data b t n Eb ltac:(congruence) H)
      as (HL & Hlen & rest & pl & plen & Er & Ep & _ & Hn).
    pose proof (slice_from_len_cap _ _ _ Er) as (? & ? & ?).
    unfold fits in Hf.
    pose proof (tagParseFuncsRef_bounded fuel _ rest pl plen
                  ltac:(unfold fits; lia) Ep).
    rewrite addUint_small in Hn by lia. lia.
Qed.

(** X1: a named-tag decode that returns has consumed at least 1 byte and at
    most the capacity of its slice (at most its length, for a buffer without
    spare capacity); an End tag consumes exactly 1 byte, any other tag at
    least its 3 header bytes and its name; and the type of the returned tag
    is one of the eleven known ones. *)
Theorem decode_consumed_bounds
        (fuel : nat) (data : slice) (t : NamedTag) (n : Z) :
  fits data ->
  parseNamedTag (tagParseFuncsRef fuel) data = Ok (t, n) ->
  1 <= n <= cap data /\
  (hid data = [] -> n <= len data) /\
  (tagType t = TAG_End -> n = 1) /\
  (tagType t <> TAG_End -> 3 + nameLengthOf data <= n) /\
  0 <= tagType t <= 10.
Proof.
  intros Hf H.
  pose proof (parseNamedTag_bounded _ (tagParseFuncsRef_bounded fuel) _ _ _ Hf H)
    as Hb.
  destruct (named_consumed fuel data t n Hf H) as [He Hn].
  split; [exact Hb|]. split; [|split; [exact He|split; [exact Hn|]]].
  - intros Hh. unfold cap, len, backing in *. rewrite Hh, app_nil_r in Hb. lia.
  - pose proof (parseNamedTag_shaped _ (tagParseFuncsRef_shaped fuel) _ _ _ H) as Hs.
    destruct t as [ty nm pl]. cbn [shapeNamed tagType] in *.
    apply (shape_known ty pl Hs).
Qed.

Lemma decode_consumed_bounds_witness :
  fits twoChildren /\
  parseNamedTag (tagParseFuncsRef 2) twoChildren
  = Ok (mkNamedTag TAG_Byte "x" (TUint8 x07), 5) /\
  1 <= 5 <= cap twoChildren /\
  (hid twoChildren = [] -> 5 <= len twoChildren) /\
  (tagType (mkNamedTag TAG_Byte "x" (TUint8 x07)) = TAG_End -> 5 = 1) /\
  (tagType (mkNamedTag TAG_Byte "x" (TUint8 x07)) <> TAG_End ->
   3 + nameLengthOf twoChildren <= 5) /\
  0 <= tagType (mkNamedTag TAG_Byte "x" (TUint8 x07)) <= 10.
Proof.
  assert (fits twoChildren) as H1 by closed_arith.
  assert (parseNamedTag (tagParseFuncsRef 2) twoChildren
          = Ok (mkNamedTag TAG_Byte "x" (TUint8 x07), 5)) as H2 by closed_arith.
  split; [exact H1|]. split; [exact H2|].
  exact (decode_consumed_bounds 2 _ _ _ H1 H2).
Defined.

Lemma childrenAt_sum (fuel : nat) (payload : slice) (children : list NamedTag) :
  fits payload ->
  forall off lens,
    0 <= off ->
    childrenAt (tagParseFuncsRef fuel) payload off children lens ->
    3 * Z.of_nat (List.length children) <= sumZ lens.
Proof.
  intros Hf. induction children as [|c cs IH]; intros off [|n ns] Hoff H;
    cbn [childrenAt] in H; try contradiction.
  - cbn. lia.
  - destruct H as ((rest & Er & Ec) & Hc & H).
    pose proof (slice_from_len_cap _ _ _ Er) as (? & ? & ?).
    assert (fits rest) as Hfr by (unfold fits in *; lia).
    destruct (named_consumed fuel rest c n Hfr Ec) as [_ Hn].
    specialize (Hn Hc).
    assert (3 <= cap rest) as Hc3.
    { destruct (tagType_decoded _ _ _ _ Ec) as (b & Eb & Hb).
      destruct (Z_lt_dec (cap rest) 3) as [Hlt|]; [|lia].
      rewrite (parseNamedTag_no_header _ rest b Eb ltac:(congruence) Hlt) in Ec.
      discriminate. }
    pose proof (nameLengthOf_range rest Hc3).
    specialize (IH (off + n) ns ltac:(lia) H).
    cbn [sumZ List.length]. lia.
Qed.

(** X2: a compound payload decode that returns has consumed at least 3
    bytes for each child it returns and 1 for the End tag, and no more than
    the capacity: the number of children is bounded by the bytes read. *)
Theorem compound_children_bounded
        (fuel : nat) (payload : slice) (v : Tag) (total : Z) :
  fits payload ->
  tagParseFuncsRef (S fuel) TAG_Compound payload = Ok (v, total) ->
  exists children,
    v = TCompound children /\
    3 * Z.of_nat (List.length children) + 1 <= total /\
    total <= cap payload.
Proof.
  intros Hf H.
  pose proof (tagParseFuncsRef_bounded (S fuel) _ _ _ _ Hf H) as Hb.
  cbn [tagParseFuncsRef] in H. table_simpl_in H. unfold parseCompoundTag in H.
  apply (parseCompoundTag_loop_decoded _ (tagParseFuncsRef_bounded fuel)) in H;
    [|exact Hf|lia].
  destruct H as (cs & ns & rest & e & elen & Hv & Hcs & Er & Ee & Hte & Ht).
  pose proof (childrenAt_sum fuel payload cs Hf 0 ns ltac:(lia) Hcs) as Hsum.
  pose proof (slice_from_len_cap _ _ _ Er) as (? & ? & ?).
  assert (fits rest) as Hfr by (unfold fits in *; lia).
  destruct (named_consumed fuel rest e elen Hfr Ee) as [He _].
  specialize (He Hte).
  exists cs. cbn [app] in Hv. split; [exact Hv|]. lia.
Qed.

Lemma compound_children_bounded_witness :
  fits twoChildren /\
  tagParseFuncsRef 5 TAG_Compound twoChildren
  = Ok (TCompound [mkNamedTag TAG_Byte "x" (TUint8 x07);
                   mkNamedTag TAG_Short "y" (TInt16 256)], 12) /\
  exists children,
    TCompound [mkNamedTag TAG_Byte "x" (TUint8 x07);
               mkNamedTag TAG_Short "y" (TInt16 256)] = TCompound children /\
    3 * Z.of_nat (List.length children) + 1 <= 12 /\
    12 <= cap twoChildren.
Proof.
  assert (fits twoChildren) as H1 by closed_arith.
  assert (tagParseFuncsRef 5 TAG_Compound twoChildren
          = Ok (TCompound [mkNamedTag TAG_Byte "x" (TUint8 x07);
                           mkNamedTag TAG_Short "y" (TInt16 256)], 12)) as H2
      by closed_arith.
  split; [exact H1|]. split; [exact H2|].
  exact (compound_children_bounded 4 _ _ _ H1 H2).
Defined.

Lemma parseListTag_loop_End (fuel turns : nat) (payload : slice) :
  5 <= len payload ->
  forall ret,
    parseListTag_loop (tagParseFuncsRef (S fuel)) turns payload TAG_End ret 5
    = Ok (ret ++ repeat TNil turns, 5).
Proof.
  intros Hlen. induction turns as [|turns IH]; intros ret;
    cbn [parseListTag_loop repeat].
  - rewrite app_nil_r. reflexivity.
  - destruct (slice_from_in_len payload 5) as [rest Er]; [lia|].
    rewrite Er. cbn [bind].
    change (tagParseFuncsRef (S fuel) TAG_End rest) with (@Ok (Tag * Z) (TNil, 0)).
    cbn [bind]. change (addUint 5 0) with 5.
    rewrite IH, <- app_assoc. reflexivity.
Qed.

(** X3: a list payload whose element type is End yields as many empty
    elements as its count field says and consumes 5 bytes only: an End
    payload takes no bytes, so the number of decoded elements is not bounded
    by the size of the input. *)
Theorem list_of_End_elements (fuel : nat) (payload : slice) (b : byte) :
  index payload 0 = Ok b -> byteZ b = TAG_End -> 5 <= len payload ->
  tagParseFuncsRef (S (S fuel)) TAG_List payload
  = Ok (TListTag TAG_End (repeat TNil (Z.to_nat (countOf payload))), 5).
Proof.
  intros E Hb Hlen. pose proof (len_le_cap payload).
  cbn [tagParseFuncsRef]. table_simpl. unfold parseListTag.
  rewrite E. cbn [bind]. rewrite (read32 payload 1) by lia.
  fold (countOf payload). rewrite Hb.
  change (call (tagParseFuncs (tagParseFuncsRef fuel) fuel))
    with (tagParseFuncsRef (S fuel)).
  change 0 with TAG_End at 1.
  rewrite (parseListTag_loop_End fuel _ payload Hlen). reflexivity.
Qed.

Lemma list_of_End_elements_witness :
  index (buffer [x00; x00; x00; x01; x00]) 0 = Ok x00 /\
  byteZ x00 = TAG_End /\ 5 <= len (buffer [x00; x00; x00; x01; x00]) /\
  List.length (repeat TNil (Z.to_nat (countOf (buffer [x00; x00; x00; x01; x00]))))
  = 256%nat /\
  tagParseFuncsRef 2 TAG_List (buffer [x00; x00; x00; x01; x00])
  = Ok (TListTag TAG_End
          (repeat TNil (Z.to_nat (countOf (buffer [x00; x00; x00; x01; x00])))),
        5).
Proof.
  assert (index (buffer [x00; x00; x00; x01; x00]) 0 = Ok x00) as H1
      by reflexivity.
  assert (byteZ x00 = TAG_End) as H2 by reflexivity.
  assert (5 <= len (buffer [x00; x00; x00; x01; x00])) as H3 by closed_arith.
  split; [exact H1|]. split; [exact H2|]. split; [exact H3|].
  split; [vm_compute; reflexivity|].
  exact (list_of_End_elements 0 _ _ H1 H2 H3).
Defined.

(** X4: the length prefix of a String or ByteArray payload is added to the
    prefix width in the arithmetic of the prefix itself: a String length of
    65534 or more, or a ByteArray length of 2^32 - 4 or more, wraps the end
    of the data below its start, and the decode panics with a slice bounds
    error however many bytes follow. *)
Theorem length_prefix_wraparound (fuel : nat) (payload : slice) :
  (2 <= cap payload -> 65534 <= bigEndian (bytesAt payload 0 2) ->
   tagParseFuncsRef (S fuel) TAG_String payload = Panic SliceBoundsOutOfRange) /\
  (4 <= cap payload -> 2 ^ 32 - 4 <= bigEndian (bytesAt payload 0 4) ->
   tagParseFuncsRef (S fuel) TAG_Byte_Array payload
   = Panic SliceBoundsOutOfRange).
Proof.
  split; intros Hc HL; cbn [tagParseFuncsRef]; table_simpl.
  - pose proof (bytesAt_range payload 0 2 ltac:(lia) ltac:(lia) ltac:(lia)) as R.
    rewrite (read16 payload 0) by lia.
    assert (add16 2 (bigEndian (bytesAt payload 0 2))
            = bigEndian (bytesAt payload 0 2) - 65534) as ->.
    { unfold add16, wrap16.
      replace (2 + bigEndian (bytesAt payload 0 2))
        with (bigEndian (bytesAt payload 0 2) - 65534 + 1 * 2 ^ 16) by lia.
      rewrite Z.mod_add by lia. apply Z.mod_small. lia. }
    rewrite reslice_Panic by lia. reflexivity.
  - pose proof (bytesAt_range payload 0 4 ltac:(lia) ltac:(lia) ltac:(lia)) as R.
    rewrite (read32 payload 0) by lia.
    assert (add32 4 (bigEndian (bytesAt payload 0 4))
            = bigEndian (bytesAt payload 0 4) - (2 ^ 32 - 4)) as ->.
    { unfold add32, wrap32.
      replace (4 + bigEndian (bytesAt payload 0 4))
        with (bigEndian (bytesAt payload 0 4) - (2 ^ 32 - 4) + 1 * 2 ^ 32) by lia.
      rewrite Z.mod_add by lia. apply Z.mod_small. lia. }
    rewrite reslice_Panic by lia. reflexivity.
Qed.

Lemma length_prefix_wraparound_witness :
  2 <= cap (buffer ([xff; xfe] ++ repeat x41 (Z.to_nat 65534))) /\
  65534 <= bigEndian (bytesAt (buffer ([xff; xfe] ++ repeat x41 (Z.to_nat 65534))) 0 2) /\
  tagParseFuncsRef 1 TAG_String (buffer ([xff; xfe] ++ repeat x41 (Z.to_nat 65534)))
  = Panic SliceBoundsOutOfRange.
Proof.
  assert (2 <= cap (buffer ([xff; xfe] ++ repeat x41 (Z.to_nat 65534)))) as H1
      by closed_arith.
  assert (65534 <= bigEndian
            (bytesAt (buffer ([xff; xfe] ++ repeat x41 (Z.to_nat 65534))) 0 2))
    as H2 by closed_arith.
  split; [exact H1|]. split; [exact H2|].
  exact (proj1 (length_prefix_wraparound 0 _) H1 H2).
Defined.

Lemma bigEndian_firstn (k : nat) (l : list byte) :
  0 <= bigEndian (firstn k l) < 256 ^ Z.of_nat k.
Proof.
  pose proof (bigEndian_range (firstn k l)) as R.
  assert (256 ^ Z.of_nat (List.length (firstn k l)) <= 256 ^ Z.of_nat k).
  { apply Z.pow_le_mono_r; [lia|]. rewrite length_firstn. lia. }
  lia.
Qed.

Lemma toInt16_signed (z : Z) :
  0 <= z < 2 ^ 16 ->
  - 2 ^ 15 <= toInt16 z < 2 ^ 15 /\ toInt16 z mod 2 ^ 16 = z /\
  (toInt16 z < 0 <-> 2 ^ 15 <= z).
Proof.
  intros H. unfold toInt16. destruct (z <? 2 ^ 15) eqn:E.
  - apply Z.ltb_lt in E. rewrite Z.mod_small by lia. lia.
  - apply Z.ltb_ge in E.
    replace (z - 2 ^ 16) with (z + (-1) * 2 ^ 16) by lia.
    rewrite Z.mod_add by lia. rewrite Z.mod_small by lia. lia.
Qed.

Lemma toInt32_signed (z : Z) :
  0 <= z < 2 ^ 32 ->
  - 2 ^ 31 <= toInt32 z < 2 ^ 31 /\ toInt32 z mod 2 ^ 32 = z /\
  (toInt32 z < 0 <-> 2 ^ 31 <= z).
Proof.
  intros H. unfold toInt32. destruct (z <? 2 ^ 31) eqn:E.
  - apply Z.ltb_lt in E. rewrite Z.mod_small by lia. lia.
  - apply Z.ltb_ge in E.
    replace (z - 2 ^ 32) with (z + (-1) * 2 ^ 32) by lia.
    rewrite Z.mod_add by lia. rewrite Z.mod_small by lia. lia.
Qed.

Lemma toInt64_signed (z : Z) :
  0 <= z < 2 ^ 64 ->
  - 2 ^ 63 <= toInt64 z < 2 ^ 63 /\ toInt64 z mod 2 ^ 64 = z /\
  (toInt64 z < 0 <-> 2 ^ 63 <= z).
Proof.
  intros H. unfold toInt64. destruct (z <? 2 ^ 63) eqn:E.
  - apply Z.ltb_lt in E. rewrite Z.mod_small by lia. lia.
  - apply Z.ltb_ge in E.
    replace (z - 2 ^ 64) with (z + (-1) * 2 ^ 64) by lia.
    rewrite Z.mod_add by lia. rewrite Z.mod_small by lia. lia.
Qed.

(** X5: a decoded Short, Int or Long is the two's-complement reading of its
    2, 4 or 8 big-endian bytes: it lies in the signed range of its width, it
    is congruent to the unsigned big-endian value, and it is negative
    exactly when that value has its top bit set.  A decoded Byte is the
    byte itself, unsigned. *)
Theorem integers_are_twos_complement
        (fuel : nat) (payload : slice) (v : Tag) (n : Z) :
  (tagParseFuncsRef (S fuel) TAG_Short payload = Ok (v, n) ->
   exists z, v = TInt16 z /\
     - 2 ^ 15 <= z < 2 ^ 15 /\
     z mod 2 ^ 16 = bigEndian (bytesAt payload 0 2) /\
     (z < 0 <-> 2 ^ 15 <= bigEndian (bytesAt payload 0 2))) /\
  (tagParseFuncsRef (S fuel) TAG_Int payload = Ok (v, n) ->
   exists z, v = TInt32 z /\
     - 2 ^ 31 <= z < 2 ^ 31 /\
     z mod 2 ^ 32 = bigEndian (bytesAt payload 0 4) /\
     (z < 0 <-> 2 ^ 31 <= bigEndian (bytesAt payload 0 4))) /\
  (tagParseFuncsRef (S fuel) TAG_Long payload = Ok (v, n) ->
   exists z, v = TInt64 z /\
     - 2 ^ 63 <= z < 2 ^ 63 /\
     z mod 2 ^ 64 = bigEndian (bytesAt payload 0 8) /\
     (z < 0 <-> 2 ^ 63 <= bigEndian (bytesAt payload 0 8))) /\
  (tagParseFuncsRef (S fuel) TAG_Byte payload = Ok (v, n) ->
   exists b, v = TUint8 b /\ index payload 0 = Ok b /\ 0 <= byteZ b <= 255).
Proof.
  split; [|split; [|split]]; intros H.
  - destruct (scalar_decoded fuel TAG_Short payload v n ltac:(vm_compute; intuition congruence) H)
      as [_ Hv].
    cbn [scalarValue TAG_Short] in Hv.
    change (firstn 2 (backing payload)) with (bytesAt payload 0 2) in Hv.
    pose proof (bigEndian_firstn 2 (backing payload)) as R.
    change (firstn 2 (backing payload)) with (bytesAt payload 0 2) in R.
    destruct (toInt16_signed (bigEndian (bytesAt payload 0 2)) ltac:(lia))
      as (H1 & H2 & H3).
    eexists. split; [exact Hv|]. auto.
  - destruct (scalar_decoded fuel TAG_Int payload v n ltac:(vm_compute; intuition congruence) H)
      as [_ Hv].
    cbn [scalarValue TAG_Int] in Hv.
    change (firstn 4 (backing payload)) with (bytesAt payload 0 4) in Hv.
    pose proof (bigEndian_firstn 4 (backing payload)) as R.
    change (firstn 4 (backing payload)) with (bytesAt payload 0 4) in R.
    destruct (toInt32_signed (bigEndian (bytesAt payload 0 4)) ltac:(lia))
      as (H1 & H2 & H3).
    eexists. split; [exact Hv|]. auto.
  - destruct (scalar_decoded fuel TAG_Long payload v n ltac:(vm_compute; intuition congruence) H)
      as [_ Hv].
    cbn [scalarValue TAG_Long] in Hv.
    change (firstn 8 (backing payload)) with (bytesAt payload 0 8) in Hv.
    pose proof (bigEndian_firstn 8 (backing payload)) as R.
    change (firstn 8 (backing payload)) with (bytesAt payload 0 8) in R.
    destruct (toInt64_signed (bigEndian (bytesAt payload 0 8)) ltac:(lia))
      as (H1 & H2 & H3).
    eexists. split; [exact Hv|]. auto.
  - cbn [tagParseFuncsRef] in H. table_simpl_in H.
    apply bind_Ok in H. destruct H as (b & Eb & H). inversion H; subst.
    pose proof (byteZ_range b). exists b. repeat split; auto; lia.
Qed.

Lemma integers_are_twos_complement_witness :
  tagParseFuncsRef 1 TAG_Short (buffer [xff; xfe]) = Ok (TInt16 (-2), 2) /\
  exists z, TInt16 (-2) = TInt16 z /\
    - 2 ^ 15 <= z < 2 ^ 15 /\
    z mod 2 ^ 16 = bigEndian (bytesAt (buffer [xff; xfe]) 0 2) /\
    (z < 0 <-> 2 ^ 15 <= bigEndian (bytesAt (buffer [xff; xfe]) 0 2)).
Proof.
  assert (tagParseFuncsRef 1 TAG_Short (buffer [xff; xfe]) = Ok (TInt16 (-2), 2))
    as H by closed_arith.
  split; [exact H|].
  exact (proj1 (integers_are_twos_complement 0 _ _ _) H).
Defined.

Section ProperChildren.

Variable ref : TagType -> decoder.
Hypothesis ref_shaped : shaped ref.
Hypothesis ref_proper : proper ref.

Lemma parseNamedTag_proper (data : slice) (t : NamedTag) (n : Z) :
  parseNamedTag ref data = Ok (t, n) ->
  properChildren (payload t) = true /\
  (tagType t <> TAG_End -> properNamed t = true).
Proof.
  intros H.
  pose proof (parseNamedTag_shaped ref ref_shaped _ _ _ H) as Hs.
  unfold parseNamedTag in H. repeat step H.
  cbn [payload tagType properNamed shapeNamed] in *.
  match goal with
  | E : ref _ _ = Ok _ |- _ => pose proof (ref_proper _ _ _ _ E) as Hp
  end.
  split; [exact Hp|]. intros Hne. rewrite Hp.
  pose proof (shape_known _ _ Hs) as R. unfold TAG_End in Hne.
  rewrite !andb_true_iff. repeat split; [apply Z.leb_le | apply Z.leb_le]; lia.
Qed.

Lemma parseCompoundTag_loop_proper (fuel : nat) (payload : slice)
      (ret : list NamedTag) (current : Z) (v : Tag) (n : Z) :
  forallb properNamed ret = true ->
  parseCompoundTag_loop ref fuel payload ret current = Ok (v, n) ->
  properChildren v = true.
Proof.
  revert ret current.
  induction fuel as [|fuel IH]; intros ret current Hret H; [discriminate|].
  cbn [parseCompoundTag_loop] in H.
  apply bind_Ok in H. destruct H as (rest & Er & H).
  apply bind_Ok in H. destruct H as ([tag length] & En & H).
  destruct (tagType tag =? TAG_End) eqn:Et.
  - inversion H; subst. cbn [properChildren]. exact Hret.
  - apply Z.eqb_neq in Et. eapply IH; [|exact H].
    rewrite forallb_app, Hret. cbn [forallb].
    rewrite (proj2 (parseNamedTag_proper _ _ _ En) Et). reflexivity.
Qed.

Lemma parseListTag_loop_proper (turns : nat) (payload : slice) (ty : TagType)
      (ret : list Tag) (current : Z) (ret' : list Tag) (n : Z) :
  forallb properChildren ret = true ->
  parseListTag_loop ref turns payload ty ret current = Ok (ret', n) ->
  forallb properChildren ret' = true.
Proof.
  revert ret current.
  induction turns as [|turns IH]; intros ret current Hret H;
    cbn [parseListTag_loop] in H.
  - inversion H; subst. exact Hret.
  - apply bind_Ok in H. destruct H as (rest & Er & H).
    apply bind_Ok in H. destruct H as ([tag length] & En & H).
    eapply IH; [|exact H].
    rewrite forallb_app, Hret. cbn [forallb].
    rewrite (ref_proper _ _ _ _ En). reflexivity.
Qed.

Lemma tagParseFuncs_proper (fuel : nat) : proper (call (tagParseFuncs ref fuel)).
Proof.
  intros ty s v n. case_ty ty; table_simpl; intros H; try discriminate;
    try (repeat step H; reflexivity).
  - (* TAG_List *)
    unfold parseListTag in H. repeat step H. cbn [properChildren].
    match goal with
    | E : parseListTag_loop _ _ _ _ _ _ = Ok _ |- _ =>
        apply parseListTag_loop_proper in E; [exact E | reflexivity]
    end.
  - (* TAG_Compound *)
    eapply parseCompoundTag_loop_proper; [|exact H]. reflexivity.
Qed.

End ProperChildren.

Lemma tagParseFuncsRef_proper (fuel : nat) : proper (tagParseFuncsRef fuel).
Proof.
  induction fuel as [|fuel IH].
  - intros ty s v n H. discriminate.
  - cbn [tagParseFuncsRef].
    apply tagParseFuncs_proper; [apply tagParseFuncsRef_shaped | exact IH].
Qed.

(** X6: in every decoded tree, at every depth, the children of a Compound
    are never End tags and have one of the ten other known types, inside
    lists as well; and every value has the dynamic type its tag type
    announces. *)
Theorem decoded_tree_invariant
        (fuel : nat) (data : slice) (t : NamedTag) (n : Z) :
  parseNamedTag (tagParseFuncsRef fuel) data = Ok (t, n) ->
  shapeNamed t = true /\
  properChildren (payload t) = true /\
  (tagType t <> TAG_End -> properNamed t = true).
Proof.
  intros H. split.
  - apply (parseNamedTag_shaped _ (tagParseFuncsRef_shaped fuel) _ _ _ H).
  - apply (parseNamedTag_proper _ (tagParseFuncsRef_shaped fuel)
             (tagParseFuncsRef_proper fuel) _ _ _ H).
Qed.

Lemma decoded_tree_invariant_witness :
  parseNamedTag (tagParseFuncsRef 4) oneChild
  = Ok (mkNamedTag TAG_Compound EmptyString
          (TCompound [mkNamedTag TAG_Byte "x" (TUint8 x07)]), 9) /\
  shapeNamed (mkNamedTag TAG_Compound EmptyString
                (TCompound [mkNamedTag TAG_Byte "x" (TUint8 x07)])) = true /\
  properChildren (TCompound [mkNamedTag TAG_Byte "x" (TUint8 x07)]) = true.
Proof.
  assert (parseNamedTag (tagParseFuncsRef 4) oneChild
          = Ok (mkNamedTag TAG_Compound EmptyString
                  (TCompound [mkNamedTag TAG_Byte "x" (TUint8 x07)]), 9)) as H
      by closed_arith.
  split; [exact H|].
  pose proof (decoded_tree_invariant 4 _ _ _ H) as (H1 & H2 & _).
  split; [exact H1 | exact H2].
Defined.

(** ** A decode reads only the bytes it consumes *)

Lemma index_shrink (s' s : slice) (i : Z) (b : byte) :
  extends s' s -> index s i = Ok b -> 0 <= i < len s' -> index s' i = Ok b.
Proof.
  intros Hext H Hi. destruct (index_in_range s' i Hi) as [b' E'].
  assert (decisive (index s' i)) as Hd by (rewrite E'; exact I).
  destruct (index_ext _ _ i Hext Hd) as (b0 & E0 & E1). congruence.
Qed.

Lemma reslice_shrink (s' s : slice) (lo hi : Z) (r : slice) :
  extends s' s -> reslice s lo hi = Ok r -> hi <= cap s' ->
  exists r', reslice s' lo hi = Ok r' /\ vis r' = vis r /\ extends r' r.
Proof.
  intros Hext H Hc. pose proof (reslice_len_cap _ _ _ _ H) as (? & ? & ? & ?).
  destruct (reslice_in_cap s' lo hi) as [r' E']; try lia.
  assert (decisive (reslice s' lo hi)) as Hd by (rewrite E'; exact I).
  destruct (reslice_ext _ _ lo hi Hext Hd) as (r0 & r1 & E0 & E1 & Hv & Hx).
  exists r'. rewrite E' in E0. inversion E0; subst r0.
  rewrite H in E1. inversion E1; subst r1. auto.
Qed.

Lemma slice_from_shrink (s' s : slice) (lo : Z) (r : slice) :
  extends s' s -> slice_from s lo = Ok r -> lo <= len s' ->
  exists r', slice_from s' lo = Ok r' /\ extends r' r /\ len r' = len s' - lo.
Proof.
  intros Hext H Hc. pose proof (slice_from_len_cap _ _ _ H) as (? & ? & ?).
  destruct (slice_from_in_len s' lo) as [r' E']; try lia.
  assert (decisive (slice_from s' lo)) as Hd by (rewrite E'; exact I).
  destruct (slice_from_ext _ _ lo Hext Hd) as (r0 & r1 & E0 & E1 & Hx).
  exists r'. rewrite E' in E0. inversion E0; subst r0.
  rewrite H in E1. inversion E1; subst r1.
  pose proof (slice_from_len_cap _ _ _ E') as (? & ? & ?). auto.
Qed.

Lemma fits_shrink (s' s : slice) : extends s' s -> fits s -> fits s'.
Proof. apply fits_extends. Qed.

Section Tight.

Variable ref : TagType -> decoder.
Hypothesis ref_bounded : bounded ref.
Hypothesis ref_tight : tight ref.

Lemma parseNamedTag_tight (s s' : slice) (t : NamedTag) (n : Z) :
  fits s -> extends s' s -> n <= len s' ->
  parseNamedTag ref s = Ok (t, n) -> parseNamedTag ref s' = Ok (t, n).
Proof.
  intros Hf Hext Hn H. unfold parseNamedTag in H.
  apply bind_Ok in H. destruct H as (b & Eb & H).
  apply bind_Ok in H. destruct H as ([nm ps] & Eh & H).
  apply bind_Ok in H. destruct H as (rest & Er & H).
  apply bind_Ok in H. destruct H as ([pl plen] & Ep & H).
  inversion H; subst t n; clear H.
  pose proof (slice_from_len_cap _ _ _ Er) as (Hps & Hlr & Hcr).
  pose proof (len_le_cap s'). unfold fits in Hf.
  pose proof (ref_bounded _ rest pl plen ltac:(unfold fits; lia) Ep) as Hb.
  assert (1 <= ps) as Hps1.
  { destruct (negb (byteZ b =? TAG_End)); repeat step Eh; slice_facts; lia. }
  rewrite addUint_small in Hn by lia.
  unfold parseNamedTag.
  rewrite (index_shrink s' s 0 b Hext Eb) by lia. cbn [bind].
  assert ((if negb (byteZ b =? TAG_End)
           then l <- reslice s' 1 3 ;;
                nameLength <- Uint16 l ;;
                n0 <- reslice s' 3 (add16 3 nameLength) ;;
                Ok (string_of_slice n0, add16 3 nameLength)
           else Ok (EmptyString, 1)) = Ok (nm, ps)) as ->.
  { destruct (negb (byteZ b =? TAG_End)); [|exact Eh].
    apply bind_Ok in Eh. destruct Eh as (l & El & Eh).
    apply bind_Ok in Eh. destruct Eh as (L & EL & Eh).
    apply bind_Ok in Eh. destruct Eh as (n0 & En0 & Eh).
    inversion Eh; subst nm ps; clear Eh.
    pose proof (reslice_len_cap _ _ _ _ En0) as (? & ? & ? & ?).
    destruct (reslice_shrink s' s 1 3 l Hext El ltac:(lia)) as (l' & El' & Hv & _).
    rewrite El'. cbn [bind]. rewrite (Uint16_vis l l' Hv), EL. cbn [bind].
    destruct (reslice_shrink s' s 3 _ n0 Hext En0 ltac:(lia))
      as (n0' & En0' & Hv0 & _).
    rewrite En0'. cbn [bind]. unfold string_of_slice. rewrite Hv0. reflexivity. }
  cbn [bind].
  destruct (slice_from_shrink s' s ps rest Hext Er ltac:(lia))
    as (rest' & Er' & Hx & Hl').
  rewrite Er'. cbn [bind].
  rewrite (ref_tight _ rest rest' pl plen ltac:(unfold fits; lia) Hx ltac:(lia) Ep).
  cbn [bind]. rewrite addUint_small by lia. reflexivity.
Qed.

Lemma parseCompoundTag_loop_tight (fuel : nat) (s s' : slice)
      (ret : list NamedTag) (current : Z) (v : Tag) (n : Z) :
  fits s -> extends s' s -> n <= len s' -> 0 <= current ->
  parseCompoundTag_loop ref fuel s ret current = Ok (v, n) ->
  parseCompoundTag_loop ref fuel s' ret current = Ok (v, n).
Proof.
  intros Hf Hext Hn. revert ret current.
  induction fuel as [|fuel IH]; intros ret current Hc H; [discriminate|].
  pose proof (parseCompoundTag_loop_bounded ref ref_bounded _ _ _ _ _ _ Hf Hc H)
    as Hb.
  cbn [parseCompoundTag_loop] in H |- *.
  apply bind_Ok in H. destruct H as (rest & Er & H).
  apply bind_Ok in H. destruct H as ([tag length] & Et & H).
  pose proof (slice_from_len_cap _ _ _ Er) as (? & ? & ?).
  unfold fits in Hf.
  pose proof (parseNamedTag_bounded ref ref_bounded rest tag length
                ltac:(unfold fits; lia) Et) as Hbt.
  rewrite addUint_small in H by lia.
  destruct (slice_from_shrink s' s current rest Hext Er ltac:(lia))
    as (rest' & Er' & Hx & Hl').
  rewrite Er'. cbn [bind].
  assert (current + length <= n) as Hle.
  { destruct (tagType tag =? TAG_End).
    - inversion H. lia.
    - assert (0 <= current + length) as Hnn by lia.
      pose proof (parseCompoundTag_loop_bounded ref ref_bounded _ _ _ _ _ _
                    Hf Hnn H). lia. }
  rewrite (parseNamedTag_tight rest rest' tag length
             ltac:(unfold fits; lia) Hx ltac:(lia) Et).
  cbn [bind]. rewrite addUint_small by lia.
  destruct (tagType tag =? TAG_End); [exact H|].
  apply IH; [lia | exact H].
Qed.

Lemma parseListTag_loop_tight (turns : nat) (s s' : slice) (ty : TagType)
      (ret : list Tag) (current : Z) (ret' : list Tag) (n : Z) :
  fits s -> extends s' s -> n <= len s' -> 0 <= current <= cap s ->
  parseListTag_loop ref turns s ty ret current = Ok (ret', n) ->
  parseListTag_loop ref turns s' ty ret current = Ok (ret', n).
Proof.
  intros Hf Hext Hn. revert ret current.
  induction turns as [|turns IH]; intros ret current Hc H;
    cbn [parseListTag_loop] in H |- *; [exact H|].
  apply bind_Ok in H. destruct H as (rest & Er & H).
  apply bind_Ok in H. destruct H as ([tag length] & Et & H).
  pose proof (slice_from_len_cap _ _ _ Er) as (? & ? & ?).
  unfold fits in Hf.
  pose proof (ref_bounded _ rest tag length ltac:(unfold fits; lia) Et) as Hbt.
  rewrite addUint_small in H by lia.
  assert (0 <= current + length <= cap s) as Hnn by lia.
  pose proof (parseListTag_loop_bounded ref ref_bounded _ _ _ _ _ _ _
                Hf Hnn H) as Hb.
  destruct (slice_from_shrink s' s current rest Hext Er ltac:(lia))
    as (rest' & Er' & Hx & Hl').
  rewrite Er'. cbn [bind].
  rewrite (ref_tight _ rest rest' tag length
             ltac:(unfold fits; lia) Hx ltac:(lia) Et).
  cbn [bind]. rewrite addUint_small by lia. apply IH; [lia | exact H].
Qed.

End Tight.

Lemma extends_bytesAt (s' s : slice) (lo n : Z) :
  extends s' s -> 0 <= lo -> 0 <= n -> lo + n <= cap s' ->
  bytesAt s lo n = bytesAt s' lo n.
Proof.
  intros [[e He] _] Hlo Hn Hc. unfold bytesAt, cap in *. rewrite He.
  rewrite skipn_app_le by lia. apply firstn_app_le.
  rewrite length_skipn. lia.
Qed.

Ltac shrink_field H Hext :=
  match type of H with
  | bind (reslice ?s ?lo ?hi) _ = _ =>
      let w := eval cbv in (hi - lo) in
      field_or_short H w;
      inversion H; subst; clear H;
      match goal with
      | |- context [reslice ?s' lo hi] =>
          pose proof (len_le_cap s');
          first [ rewrite (read16 s' lo) by lia
                | rewrite (read32 s' lo) by lia
                | rewrite (read64 s' lo) by lia ];
          rewrite (extends_bytesAt s' s lo w Hext) by lia;
          reflexivity
      end
  end.

Lemma tagParseFuncs_tight (ref : TagType -> decoder) (fuel : nat) :
  bounded ref -> tight ref -> tight (call (tagParseFuncs ref fuel)).
Proof.
  intros Hb Ht ty s s' v n Hf Hext Hn. pose proof (len_le_cap s') as Hlc.
  case_ty ty; table_simpl; intros H; try discriminate.
  - (* TAG_End *) exact H.
  - (* TAG_Byte *)
    apply bind_Ok in H. destruct H as (b & Eb & H). inversion H; subst.
    rewrite (index_shrink s' s 0 b Hext Eb) by lia. reflexivity.
  - (* TAG_Short *) shrink_field H Hext.
  - (* TAG_Int *) shrink_field H Hext.
  - (* TAG_Long *) shrink_field H Hext.
  - (* TAG_Float *) shrink_field H Hext.
  - (* TAG_Double *) shrink_field H Hext.
  - (* TAG_Byte_Array *)
    field_or_short H 4.
    apply bind_Ok in H. destruct H as (a & Ea & H). inversion H; subst; clear H.
    pose proof (reslice_len_cap _ _ _ _ Ea) as (? & ? & ? & ?).
    rewrite (read32 s' 0) by lia.
    rewrite <- (extends_bytesAt s' s 0 4 Hext) by lia.
    destruct (reslice_shrink s' s 4 _ a Hext Ea ltac:(lia)) as (a' & Ea' & Hv & _).
    rewrite Ea'. cbn [bind]. rewrite Hv. reflexivity.
  - (* TAG_String *)
    field_or_short H 2.
    apply bind_Ok in H. destruct H as (a & Ea & H). inversion H; subst; clear H.
    pose proof (reslice_len_cap _ _ _ _ Ea) as (? & ? & ? & ?).
    rewrite (read16 s' 0) by lia.
    rewrite <- (extends_bytesAt s' s 0 2 Hext) by lia.
    destruct (reslice_shrink s' s 2 _ a Hext Ea ltac:(lia)) as (a' & Ea' & Hv & _).
    rewrite Ea'. cbn [bind]. unfold string_of_slice. rewrite Hv. reflexivity.
  - (* TAG_List *)
    pose proof (parseListTag_bounded ref Hb _ _ _ Hf H) as Hbn.
    unfold parseListTag in H |- *.
    apply bind_Ok in H. destruct H as (b & Eb & H).
    rewrite (index_shrink s' s 0 b Hext Eb) by lia. cbn [bind].
    destruct (Z_le_dec 5 (cap s)) as [Hc|Hc];
      [|rewrite read_short in H by lia; discriminate H].
    rewrite (read32 s 1) in H by lia. rewrite (read32 s' 1) by lia.
    rewrite <- (extends_bytesAt s' s 1 4 Hext) by lia.
    apply bind_Ok in H. destruct H as ([ret current] & El & H).
    inversion H; subst; clear H.
    assert (0 <= 5 <= cap s) as H5 by lia.
    rewrite (parseListTag_loop_tight ref Hb Ht _ s s' _ _ _ _ _ Hf Hext Hn H5 El).
    reflexivity.
  - (* TAG_Compound *)
    apply (parseCompoundTag_loop_tight ref Hb Ht fuel s s' _ _ _ _ Hf Hext Hn
             (Z.le_refl 0) H).
Qed.

Lemma tagParseFuncsRef_tight (fuel : nat) : tight (tagParseFuncsRef fuel).
Proof.
  induction fuel as [|fuel IH].
  - intros ty s s' v n _ _ _ H. discriminate.
  - cbn [tagParseFuncsRef].
    apply tagParseFuncs_tight; [apply tagParseFuncsRef_bounded | exact IH].
Qed.

(** X7: a decode is determined by the bytes it consumes: when a buffer
    decodes to a tag consuming n bytes, every buffer that starts with the
    same n bytes - the n bytes alone included - decodes to the same tag,
    consuming n bytes. *)
Theorem decode_prefix_determined
        (fuel : nat) (v w : list byte) (t : NamedTag) (n : Z) :
  fits (buffer v) ->
  parseNamedTag (tagParseFuncsRef fuel) (buffer v) = Ok (t, n) ->
  firstn (Z.to_nat n) w = firstn (Z.to_nat n) v ->
  parseNamedTag (tagParseFuncsRef fuel) (buffer w) = Ok (t, n) /\
  parseNamedTag (tagParseFuncsRef fuel) (buffer (firstn (Z.to_nat n) v))
  = Ok (t, n).
Proof.
  intros Hf H Hw.
  pose proof (parseNamedTag_bounded _ (tagParseFuncsRef_bounded fuel) _ _ _ Hf H)
    as Hb.
  assert (parseNamedTag (tagParseFuncsRef fuel) (buffer (firstn (Z.to_nat n) v))
          = Ok (t, n)) as Hcut.
  { apply (parseNamedTag_tight _ (tagParseFuncsRef_bounded fuel)
             (tagParseFuncsRef_tight fuel) (buffer v)); auto.
    - apply extends_truncated.
    - unfold cap, len, backing, buffer in *. simpl in *.
      rewrite app_nil_r in Hb. rewrite length_firstn. lia. }
  split; [|exact Hcut].
  rewrite <- Hw in Hcut.
  apply (parseNamedTag_extends fuel _ _ _ (extends_truncated w (Z.to_nat n)) Hcut).
Qed.

Lemma decode_prefix_determined_witness :
  fits (buffer [x01; x00; x01; x61; x2a; x00; x00]) /\
  parseNamedTag (tagParseFuncsRef 2) (buffer [x01; x00; x01; x61; x2a; x00; x00])
  = Ok (mkNamedTag TAG_Byte "a" (TUint8 x2a), 5) /\
  firstn (Z.to_nat 5) [x01; x00; x01; x61; x2a; xff]
  = firstn (Z.to_nat 5) [x01; x00; x01; x61; x2a; x00; x00] /\
  parseNamedTag (tagParseFuncsRef 2) (buffer [x01; x00; x01; x61; x2a; xff])
  = Ok (mkNamedTag TAG_Byte "a" (TUint8 x2a), 5).
Proof.
  assert (fits (buffer [x01; x00; x01; x61; x2a; x00; x00])) as H1
      by closed_arith.
  assert (parseNamedTag (tagParseFuncsRef 2)
            (buffer [x01; x00; x01; x61; x2a; x00; x00])
          = Ok (mkNamedTag TAG_Byte "a" (TUint8 x2a), 5)) as H2 by closed_arith.
  assert (firstn (Z.to_nat 5) [x01; x00; x01; x61; x2a; xff]
          = firstn (Z.to_nat 5) [x01; x00; x01; x61; x2a; x00; x00]) as H3
      by reflexivity.
  split; [exact H1|]. split; [exact H2|]. split; [exact H3|].
  exact (proj1 (decode_prefix_determined 2 _ _ _ _ H1 H2 H3)).
Defined.

(** * The command *)

Lemma Print_decoded (fmtFloat32 fmtFloat64 : Z -> string) (fmtOther : Tag -> string)
      (fuel : nat) (data : slice) (t : NamedTag) (n : Z) :
  parseNamedTag (tagParseFuncsRef fuel) data = Ok (t, n) ->
  Print fmtFloat32 fmtFloat64 fmtOther EmptyString EmptyString t
  = Ok (renderNamed fmtFloat32 fmtFloat64 fmtOther EmptyString 0 t).
Proof.
  intros H.
  pose proof (parseNamedTag_shaped _ (tagParseFuncsRef_shaped fuel) _ _ _ H) as Hs.
  destruct t as [ty nm pl]. cbn [shapeNamed] in Hs.
  apply (proj2 (Print_renders_aux fmtFloat32 fmtFloat64 fmtOther EmptyString pl)
           ty nm 0%nat EmptyString Hs).
Qed.

(** X8: run on a file that holds a decodable tag, with a second argument
    other than "true", the command writes the text of a failed read, if
    any, followed by the rendering of the decoded tag at the empty prefix,
    and ends normally; with the second argument "true" it does the same on
    the decompressed bytes. *)
Theorem main_prints_rendering
        (Args : list string) (ReadFile : string -> slice * option string)
        (decompress : slice -> result (option slice))
        (fmtFloat32 fmtFloat64 : Z -> string) (fmtOther : Tag -> string)
        (path flag : string) (file data : slice) (err : option string)
        (fuel : nat) (t : NamedTag) (n : Z) :
  nth_error Args 1 = Some path -> nth_error Args 2 = Some flag ->
  ReadFile path = (file, err) ->
  (if String.eqb flag "true" then decompress file = Ok (Some data)
   else data = file) ->
  fits data ->
  parseNamedTag (tagParseFuncsRef fuel) data = Ok (t, n) ->
  main Args ReadFile decompress fmtFloat32 fmtFloat64 fmtOther
  = ((match err with Some e => e | None => EmptyString end
      ++ renderNamed fmtFloat32 fmtFloat64 fmtOther EmptyString 0 t)%string,
     Ok tt).
Proof.
  intros H1 H2 Hr Hin Hf H. unfold main. rewrite H1, Hr, H2.
  assert (ParseNBT decompress file (String.eqb flag "true") = Ok t) as ->.
  { destruct (String.eqb flag "true").
    - unfold ParseNBT. rewrite Hin. cbn [bind].
      rewrite (parseNamedTag_any_fuel fuel data Hf) by (rewrite H; discriminate).
      rewrite H. reflexivity.
    - subst file.
      rewrite (ParseNBT_plain decompress fuel data Hf) by (rewrite H; discriminate).
      rewrite H. reflexivity. }
  rewrite (Print_decoded fmtFloat32 fmtFloat64 fmtOther fuel data t n H).
  reflexivity.
Qed.

Lemma main_prints_rendering_witness :
  nth_error ["nbt"; "level.dat"; "false"]%string 1 = Some "level.dat"%string /\
  nth_error ["nbt"; "level.dat"; "false"]%string 2 = Some "false"%string /\
  fits oneChild /\
  parseNamedTag (tagParseFuncsRef 4) oneChild
  = Ok (mkNamedTag TAG_Compound EmptyString
          (TCompound [mkNamedTag TAG_Byte "x" (TUint8 x07)]), 9) /\
  main ["nbt"; "level.dat"; "false"]%string (fun _ => (oneChild, None))
       (fun _ => Ok None)
       (fun _ => EmptyString) (fun _ => EmptyString) (fun _ => EmptyString)
  = (("TAG_Compound(" ++ dq ++ dq ++ "): 1 entries" ++ nl
      ++ "{" ++ nl
      ++ "  TAG_Byte(" ++ dq ++ "x" ++ dq ++ "): 7" ++ nl
      ++ "}" ++ nl)%string, Ok tt).
Proof.
  assert (nth_error ["nbt"; "level.dat"; "false"]%string 1
          = Some "level.dat"%string) as H1 by reflexivity.
  assert (nth_error ["nbt"; "level.dat"; "false"]%string 2
          = Some "false"%string) as H2 by reflexivity.
  assert (fits oneChild) as H3 by closed_arith.
  assert (parseNamedTag (tagParseFuncsRef 4) oneChild
          = Ok (mkNamedTag TAG_Compound EmptyString
                  (TCompound [mkNamedTag TAG_Byte "x" (TUint8 x07)]), 9)) as H4
      by closed_arith.
  split; [exact H1|]. split; [exact H2|]. split; [exact H3|]. split; [exact H4|].
  exact (main_prints_rendering
           ["nbt"; "level.dat"; "false"]%string (fun _ => (oneChild, None))
           (fun _ => Ok None)
           (fun _ => EmptyString) (fun _ => EmptyString) (fun _ => EmptyString)
           "level.dat"%string "false"%string oneChild oneChild None 4 _ _
           H1 H2 eq_refl eq_refl H3 H4).
Defined.



(** * More edge cases *)

Ltac known_type ty :=
  let H := fresh "H" in
  assert (ty = 0 \/ ty = 1 \/ ty = 2 \/ ty = 3 \/ ty = 4 \/ ty = 5 \/
          ty = 6 \/ ty = 7 \/ ty = 8 \/ ty = 9 \/ ty = 10) as H by lia;
  destruct H as [->|[->|[->|[->|[->|[->|[->|[->|[->|[->| ->]]]]]]]]]].

(** X10: the name table of the renderer gives the eleven known tag types
    eleven different, non-empty names, and any other type the empty name,
    which is what the header of a list of an unknown element type shows. *)
Theorem typeName_distinct (a b : TagType) :
  (0 <= a <= 10 -> typeName a <> EmptyString) /\
  (0 <= a <= 10 -> 0 <= b <= 10 -> typeName a = typeName b -> a = b) /\
  (~ (0 <= a <= 10) -> typeName a = EmptyString).
Proof.
  split; [|split].
  - intros Ha. known_type a; discriminate.
  - intros Ha Hb. known_type a; known_type b; intros H;
      first [reflexivity | discriminate H].
  - intros Ha. unfold typeName, typeToString. cbn [lookup].
    repeat match goal with
           | |- context [if ?k =? a then _ else _] =>
               destruct (k =? a) eqn:E;
               [apply Z.eqb_eq in E; cbv in E; lia | clear E]
           end.
    reflexivity.
Qed.

Lemma typeName_distinct_witness :
  0 <= TAG_List <= 10 /\ 0 <= TAG_Compound <= 10 /\
  typeName TAG_List <> typeName TAG_Compound.
Proof.
  assert (0 <= TAG_List <= 10) as H1 by closed_arith.
  assert (0 <= TAG_Compound <= 10) as H2 by closed_arith.
  split; [exact H1|]. split; [exact H2|].
  intros H.
  pose proof (proj1 (proj2 (typeName_distinct TAG_List TAG_Compound)) H1 H2 H) as E.
  discriminate E.
Defined.

(** X11: a compound payload that starts with a 0 byte is the empty
    compound: it decodes to no children and consumes exactly 1 byte,
    whatever follows the 0 byte. *)
Theorem empty_compound (fuel : nat) (payload : slice) (b : byte) :
  index payload 0 = Ok b -> byteZ b = TAG_End ->
  tagParseFuncsRef (S (S fuel)) TAG_Compound payload = Ok (TCompound [], 1).
Proof.
  intros E Hb.
  change (tagParseFuncsRef (S (S fuel)))
    with (call (tagParseFuncs (tagParseFuncsRef (S fuel)) (S fuel))).
  table_simpl.
  unfold parseCompoundTag. cbn [parseCompoundTag_loop].
  pose proof (proj1 (proj1 (index_Ok _ _ _) E)) as Hi.
  destruct (slice_from_in_len payload 0) as [rest Er]; [lia|].
  rewrite Er. cbn [bind].
  assert (index rest 0 = Ok b) as Eb.
  { apply (index_shrink rest payload 0 b); [| exact E |].
    - pose proof (slice_from_len_cap _ _ _ Er) as (? & Hl & ?).
      split; [|lia]. exists []. rewrite app_nil_r.
      unfold slice_from in Er. rewrite (backing_reslice _ _ _ _ Er). reflexivity.
    - pose proof (slice_from_len_cap _ _ _ Er) as (? & Hl & ?). lia. }
  rewrite (parseNamedTag_End fuel rest b Eb Hb). reflexivity.
Qed.

Lemma empty_compound_witness :
  index (buffer [x00; xff; xff]) 0 = Ok x00 /\ byteZ x00 = TAG_End /\
  tagParseFuncsRef 2 TAG_Compound (buffer [x00; xff; xff]) = Ok (TCompound [], 1).
Proof.
  assert (index (buffer [x00; xff; xff]) 0 = Ok x00) as H1 by reflexivity.
  assert (byteZ x00 = TAG_End) as H2 by reflexivity.
  split; [exact H1|]. split; [exact H2|].
  exact (empty_compound 0 _ _ H1 H2).
Defined.

(** * The aggregate decoders return whenever their parts do *)

Lemma parseListTag_loop_complete (fuel : nat) (payload : slice) (ty : TagType)
      (elems : list Tag) :
  fits payload ->
  forall lens ret current,
    0 <= current ->
    elementsAt (tagParseFuncsRef fuel) payload ty current elems lens ->
    parseListTag_loop (tagParseFuncsRef fuel) (List.length elems) payload ty
                      ret current
    = Ok (ret ++ elems, current + sumZ lens).
Proof.
  intros Hf. induction elems as [|e es IH]; intros [|n ns] ret current Hc H;
    cbn [elementsAt] in H; try contradiction;
    cbn [List.length parseListTag_loop sumZ].
  - rewrite app_nil_r, Z.add_0_r. reflexivity.
  - destruct H as ((rest & Er & Ee) & H).
    rewrite Er. cbn [bind]. rewrite Ee. cbn [bind].
    pose proof (slice_from_len_cap _ _ _ Er) as (? & ? & ?).
    pose proof (len_le_cap payload). unfold fits in Hf.
    pose proof (tagParseFuncsRef_bounded fuel _ rest e n
                  ltac:(unfold fits; lia) Ee).
    rewrite addUint_small by lia.
    rewrite (IH ns (ret ++ [e]) (current + n) ltac:(lia) H).
    rewrite <- app_assoc, Z.add_assoc. reflexivity.
Qed.

(** X12: a list payload decode returns whenever its parts are there: if the
    first byte is the element type, the count field is N, and the table's
    decoder for the element type returns N values at consecutive offsets
    from 5 on, then the list decode returns exactly these values, consuming
    5 plus the sum of their consumed counts. *)
Theorem list_decode_complete
        (fuel : nat) (payload : slice) (b : byte)
        (elems : list Tag) (lens : list Z) :
  fits payload ->
  index payload 0 = Ok b -> 5 <= cap payload ->
  countOf payload = Z.of_nat (List.length elems) ->
  elementsAt (tagParseFuncsRef fuel) payload (byteZ b) 5 elems lens ->
  tagParseFuncsRef (S fuel) TAG_List payload
  = Ok (TListTag (byteZ b) elems, 5 + sumZ lens).
Proof.
  intros Hf E Hc Hn He.
  change (tagParseFuncsRef (S fuel))
    with (call (tagParseFuncs (tagParseFuncsRef fuel) fuel)).
  table_simpl. unfold parseListTag. rewrite E. cbn [bind].
  rewrite (read32 payload 1) by lia. fold (countOf payload).
  rewrite Hn, Nat2Z.id.
  rewrite (parseListTag_loop_complete fuel payload (byteZ b) elems Hf lens []
             5 ltac:(lia) He).
  reflexivity.
Qed.

Lemma list_decode_complete_witness :
  fits twoShorts /\ index twoShorts 0 = Ok x02 /\ 5 <= cap twoShorts /\
  countOf twoShorts = Z.of_nat (List.length [TInt16 1; TInt16 (-1)]) /\
  elementsAt (tagParseFuncsRef 1) twoShorts (byteZ x02) 5
             [TInt16 1; TInt16 (-1)] [2; 2] /\
  tagParseFuncsRef 2 TAG_List twoShorts
  = Ok (TListTag (byteZ x02) [TInt16 1; TInt16 (-1)], 5 + sumZ [2; 2]).
Proof.
  assert (fits twoShorts) as H1 by closed_arith.
  assert (index twoShorts 0 = Ok x02) as H2 by reflexivity.
  assert (5 <= cap twoShorts) as H3 by closed_arith.
  assert (countOf twoShorts = Z.of_nat (List.length [TInt16 1; TInt16 (-1)]))
    as H4 by reflexivity.
  assert (elementsAt (tagParseFuncsRef 1) twoShorts (byteZ x02) 5
                     [TInt16 1; TInt16 (-1)] [2; 2]) as H5.
  { cbn [elementsAt]. split; [|split; [|exact I]].
    - exists (buffer [x00; x01; xff; xff]). split; reflexivity.
    - exists (buffer [xff; xff]). split; reflexivity. }
  split; [exact H1|]. split; [exact H2|]. split; [exact H3|].
  split; [exact H4|]. split; [exact H5|].
  exact (list_decode_complete 1 _ _ _ _ H1 H2 H3 H4 H5).
Defined.

Lemma parseCompoundTag_loop_complete (fuel : nat) (payload : slice)
      (children : list NamedTag) :
  fits payload ->
  forall lens ret current turns rest,
    0 <= current -> (List.length children < turns)%nat ->
    childrenAt (tagParseFuncsRef fuel) payload current children lens ->
    slice_from payload (current + sumZ lens) = Ok rest ->
    parseNamedTag (tagParseFuncsRef fuel) rest
    = Ok (mkNamedTag TAG_End EmptyString TNil, 1) ->
    parseCompoundTag_loop (tagParseFuncsRef fuel) turns payload ret current
    = Ok (TCompound (ret ++ children), current + sumZ lens + 1).
Proof.
  intros Hf. induction children as [|c cs IH];
    intros [|n ns] ret current turns rest Hc Ht H Er Ee;
    cbn [childrenAt] in H; try contradiction;
    (destruct turns as [|turns]; [cbn [List.length] in Ht; lia|]);
    cbn [parseCompoundTag_loop sumZ] in *.
  - rewrite Z.add_0_r in Er |- *. rewrite Er. cbn [bind]. rewrite Ee. cbn [bind].
    pose proof (slice_from_len_cap _ _ _ Er) as (? & ? & ?).
    pose proof (len_le_cap payload). unfold fits in Hf.
    pose proof (parseNamedTag_bounded _ (tagParseFuncsRef_bounded fuel) rest _ _
                  ltac:(unfold fits; lia) Ee).
    rewrite addUint_small by lia. cbn [tagType Z.eqb TAG_End].
    rewrite app_nil_r. reflexivity.
  - destruct H as ((rest0 & Er0 & Ec) & Hne & H).
    rewrite Er0. cbn [bind]. rewrite Ec. cbn [bind].
    pose proof (slice_from_len_cap _ _ _ Er0) as (? & ? & ?).
    pose proof (len_le_cap payload). unfold fits in Hf.
    pose proof (parseNamedTag_bounded _ (tagParseFuncsRef_bounded fuel) rest0 _ _
                  ltac:(unfold fits; lia) Ec).
    rewrite addUint_small by lia.
    apply Z.eqb_neq in Hne. rewrite Hne.
    rewrite Z.add_assoc in Er.
    rewrite (IH ns (ret ++ [c]) (current + n) turns rest ltac:(lia)
               ltac:(cbn [List.length] in Ht; lia) H Er Ee).
    rewrite <- app_assoc, Z.add_assoc. reflexivity.
Qed.

Lemma childrenAt_more_fuel (fuel1 fuel2 : nat) (payload : slice)
      (children : list NamedTag) :
  (fuel1 <= fuel2)%nat ->
  forall off lens,
    childrenAt (tagParseFuncsRef fuel1) payload off children lens ->
    childrenAt (tagParseFuncsRef fuel2) payload off children lens.
Proof.
  intros Hle. induction children as [|c cs IH]; intros off [|n ns] H;
    cbn [childrenAt] in *; try contradiction; [exact I|].
  destruct H as ((rest & Er & Ec) & Hne & H).
  split; [|split; [exact Hne | apply IH; exact H]].
  exists rest. split; [exact Er|].
  rewrite (parseNamedTag_more_fuel fuel1 fuel2 rest Hle) by (rewrite Ec; discriminate).
  exact Ec.
Qed.

(** X13: a compound payload decode returns whenever its parts are there: if
    the named-tag decoder returns the children, none of them an End tag, at
    consecutive offsets and a 0 byte follows the last one, then the
    compound decode returns exactly these children, in that order,
    consuming the sum of their consumed counts plus 1. *)
Theorem compound_decode_complete
        (fuel : nat) (payload : slice)
        (children : list NamedTag) (lens : list Z) (rest : slice) (b : byte) :
  fits payload ->
  childrenAt (tagParseFuncsRef fuel) payload 0 children lens ->
  slice_from payload (sumZ lens) = Ok rest ->
  index rest 0 = Ok b -> byteZ b = TAG_End ->
  tagParseFuncsRef (S (S (Nat.max fuel (List.length children))))
                   TAG_Compound payload
  = Ok (TCompound children, sumZ lens + 1).
Proof.
  intros Hf Hcs Er Eb Hb.
  pose proof (Nat.le_max_l fuel (List.length children)) as Hle.
  pose proof (Nat.le_max_r fuel (List.length children)) as Hlen.
  set (F := Nat.max fuel (List.length children)) in *.
  change (tagParseFuncsRef (S (S F)))
    with (call (tagParseFuncs (tagParseFuncsRef (S F)) (S F))).
  table_simpl. unfold parseCompoundTag.
  rewrite (parseCompoundTag_loop_complete (S F) payload children Hf lens [] 0
             (S F) rest (Z.le_refl 0) ltac:(lia)
             (childrenAt_more_fuel fuel (S F) payload children ltac:(lia) 0 lens Hcs)
             Er (parseNamedTag_End F rest b Eb Hb)).
  reflexivity.
Qed.

Lemma compound_decode_complete_witness :
  fits twoChildren /\
  childrenAt (tagParseFuncsRef 1) twoChildren 0
             [mkNamedTag TAG_Byte "x" (TUint8 x07);
              mkNamedTag TAG_Short "y" (TInt16 256)] [5; 6] /\
  slice_from twoChildren (sumZ [5; 6]) = Ok (buffer [x00]) /\
  index (buffer [x00]) 0 = Ok x00 /\ byteZ x00 = TAG_End /\
  tagParseFuncsRef 4 TAG_Compound twoChildren
  = Ok (TCompound [mkNamedTag TAG_Byte "x" (TUint8 x07);
                   mkNamedTag TAG_Short "y" (TInt16 256)], sumZ [5; 6] + 1).
Proof.
  assert (fits twoChildren) as H1 by closed_arith.
  assert (childrenAt (tagParseFuncsRef 1) twoChildren 0
                     [mkNamedTag TAG_Byte "x" (TUint8 x07);
                      mkNamedTag TAG_Short "y" (TInt16 256)] [5; 6]) as H2.
  { cbn [childrenAt]. split; [|split; [discriminate|split; [|split; [discriminate|exact I]]]].
    - exists twoChildren. split; reflexivity.
    - exists (buffer [x02; x00; x01; x79; x01; x00; x00]). split; reflexivity. }
  assert (slice_from twoChildren (sumZ [5; 6]) = Ok (buffer [x00])) as H3
      by reflexivity.
  assert (index (buffer [x00]) 0 = Ok x00) as H4 by reflexivity.
  assert (byteZ x00 = TAG_End) as H5 by reflexivity.
  split; [exact H1|]. split; [exact H2|]. split; [exact H3|].
  split; [exact H4|]. split; [exact H5|].
  exact (compound_decode_complete 1 _ _ _ _ _ H1 H2 H3 H4 H5).
Defined.
